(** * blacksmith: the DHCP lease pool and the TFTP read-only server

    A shallow embedding of [dhcp/leasepool.go] (the lease pool kept in etcd)
    and of [tftp/tftp.go] (RRQ parser, stop-and-wait sender, transfer loop),
    with the properties of the specification proved or refuted on it. *)

From Stdlib Require Import ZArith Lia List Ascii String Bool DecimalString DecimalZ.
From stdpp Require Import base option list gmap strings.

Local Open Scope Z_scope.

(** * Part I: the lease pool *)

Module Dhcp.

(** A wall-clock instant ([time.Time]) and a [time.Duration], both counted in
    the same unit; an IPv4 address ([net.IP] after [To4]) as the value of its
    four bytes read big-endian.  [net.IP.String] is injective on IPv4
    addresses, so the dotted-quad key of a lease is modelled by the address
    itself. *)
Abbreviation Time := Z.
Abbreviation Duration := Z.
Abbreviation IPv4 := Z.

Inductive error : Type :=
  | ErrLeasePoolIsFull
  | ErrRefreshNoMatch
  | ErrFoundInvalidLease
  | EtcdFailure (msg : string).

Inductive result (A : Type) : Type :=
  | Ok (a : A)
  | Err (e : error).
Arguments Ok {A} a.
Arguments Err {A} e.

Record Lease : Type := mkLease {
  Nic : string;
  IP : IPv4;
  FirstAssigned : Time;
  LastAssigned : Time;
  ExpireTime : Time
}.

(** [newLease]; the reading of [time.Now()] it takes is the argument [now],
    and the [*time.Time] argument is an option. *)
Definition newLease (now : Time) (nic : string) (ip : IPv4)
    (expireDuration : Duration) (firstAssigned : option Time) : Lease :=
  {| Nic := nic;
     IP := ip;
     FirstAssigned := match firstAssigned with
                      | None => now
                      | Some t => t
                      end;
     LastAssigned := now;
     ExpireTime := now + expireDuration |}.

(** The fields of [LeasePool] the allocation reads; [etcdDir] only prefixes
    the keys and the two mutexes serialise the calls. *)
Record LeasePool : Type := mkLeasePool {
  startIP : IPv4;
  rangeLen : Z;
  expireDuration : Duration
}.

(** [dhcp4.IPAdd]: addition on the 32-bit value of the address. *)
Definition IPAdd (start : IPv4) (add : Z) : IPv4 := (start + add) mod 2 ^ 32.

(** The text held by a node of the store, represented by what
    [encoding/json] makes of it: the JSON of a lease, or a text that
    [json.Unmarshal] refuses. *)
Inductive Value : Type :=
  | JSON (l : Lease)
  | Malformed (text : string).

Definition Marshal (l : Lease) : Value := JSON l.

Definition Unmarshal (v : Value) : option Lease :=
  match v with
  | JSON l => Some l
  | Malformed _ => None
  end.

(** The key [<etcdDir>/leases] of the store: absent ([None], the store
    answers KeyNotFound), or a directory of nodes. *)
Abbreviation Etcd := (option (gmap Z Value)).

(** What the surroundings decide during one call of the pool: the readings
    of the clock, the failures of the etcd client, the order in which etcd
    lists the nodes of a directory and the order in which Go's [range]
    visits the entries of a map. *)
Record Env : Type := mkEnv {
  clock_now : Time;
  clock_lease : Time;
  get_fault : option string;
  mkdir_fault : option string;
  set_fault : option string;
  node_order : list (Z * Value) -> list (Z * Value);
  range_order : list (Z * Lease) -> list (Z * Lease)
}.

(** [LeasePool.Store]: a failure of [json.Marshal] or of [Set] is returned
    and leaves the store as it was; [Set] creates the directory when needed. *)
Definition Store (e : Env) (lease : Lease) (st : Etcd) : Etcd * option error :=
  match set_fault e with
  | Some msg => (st, Some (EtcdFailure msg))
  | None => (Some (<[IP lease := Marshal lease]> (default ∅ st)), None)
  end.

(** The loop of [Leases] over [response.Node.Nodes]. *)
Fixpoint collect (nodes : list (Z * Value)) (leases : gmap Z Lease)
    : option (gmap Z Lease) :=
  match nodes with
  | [] => Some leases
  | (_, v) :: rest =>
      match Unmarshal v with
      | Some lease => collect rest (<[IP lease := lease]> leases)
      | None => None
      end
  end.

Definition Leases (e : Env) (st : Etcd) : Etcd * result (gmap Z Lease) :=
  match get_fault e with
  | Some msg => (st, Err (EtcdFailure msg))
  | None =>
      match st with
      | None =>
          match mkdir_fault e with
          | Some msg => (st, Err (EtcdFailure msg))
          | None => (Some ∅, Ok ∅)
          end
      | Some dir =>
          match collect (node_order e (map_to_list dir)) ∅ with
          | Some leases => (st, Ok leases)
          | None => (st, Err ErrFoundInvalidLease)
          end
      end
  end.

(** [LeasePool.Reset]: [Delete] answers KeyNotFound exactly when the subtree
    is absent, which [Reset] does not count as an error; any other error of
    [Delete] is returned. *)
Definition Reset (delete_fault : option string) (st : Etcd)
    : Etcd * option error :=
  match delete_fault with
  | Some msg => (st, Some (EtcdFailure msg))
  | None =>
      match st with
      | None => (* KeyNotFound *) (None, None)
      | Some _ => (None, None)
      end
  end.

Definition has_nic (nic : string) (kl : Z * Lease) : bool :=
  bool_decide (Nic kl.2 = nic).

Definition unseen (leases : gmap Z Lease) (ip : IPv4) : bool :=
  bool_decide (leases !! ip = None).

Definition expired (now : Time) (kl : Z * Lease) : bool :=
  bool_decide (ExpireTime kl.2 < now).

Definition Assign (e : Env) (p : LeasePool) (nic : string) (st : Etcd)
    : Etcd * result IPv4 :=
  let '(st1, r) := Leases e st in
  match r with
  | Err err => (st1, Err err)
  | Ok leases =>
      let entries := range_order e (map_to_list leases) in
      (* try to find by mac address *)
      match find (has_nic nic) entries with
      | Some (_, lease) =>
          let '(st2, _) :=
            Store e (newLease (clock_lease e) nic (IP lease) (expireDuration p)
                       (Some (FirstAssigned lease))) st1 in
          (st2, Ok (IP lease))
      | None =>
          (* find an unseen ip *)
          match find (unseen leases)
                  (IPAdd (startIP p) <$> seqZ 0 (rangeLen p)) with
          | Some ip =>
              let '(st2, err) :=
                Store e (newLease (clock_lease e) nic ip (expireDuration p) None)
                  st1 in
              match err with
              | Some err => (st2, Err err)
              | None => (st2, Ok ip)
              end
          | None =>
              (* find an expired ip *)
              match find (expired (clock_now e)) entries with
              | Some (_, lease) =>
                  let '(st2, _) :=
                    Store e (newLease (clock_lease e) nic (IP lease)
                               (expireDuration p) None) st1 in
                  (st2, Ok (IP lease))
              | None => (st1, Err ErrLeasePoolIsFull)
              end
          end
      end
  end.

Definition active_for (nic : string) (now : Time) (kl : Z * Lease) : bool :=
  bool_decide (Nic kl.2 = nic) && bool_decide (now < ExpireTime kl.2).

Definition Request (e : Env) (p : LeasePool) (nic : string) (currentIP : IPv4)
    (st : Etcd) : Etcd * result IPv4 :=
  let '(st1, r) := Leases e st in
  match r with
  | Err err => (st1, Err err)
  | Ok leases =>
      let now := clock_now e in
      match leases !! currentIP with
      | Some lease =>
          if bool_decide (Nic lease = nic) then
            let '(st2, _) :=
              Store e (newLease (clock_lease e) nic (IP lease)
                         (expireDuration p) (Some (FirstAssigned lease))) st1 in
            (st2, Ok (IP lease))
          else if bool_decide (now < ExpireTime lease) then
            (st1, Err ErrRefreshNoMatch)
          else
            (st1, Err ErrRefreshNoMatch)
      | None =>
          (* try to find by mac address *)
          match find (active_for nic now) (range_order e (map_to_list leases)) with
          | Some _ => (st1, Err ErrRefreshNoMatch)
          | None =>
              (* assign that ip to this nic *)
              let '(st2, _) :=
                Store e (newLease (clock_lease e) nic currentIP
                           (expireDuration p) None) st1 in
              (st2, Ok currentIP)
          end
      end
  end.

(** ** The policies in the words of the specification *)

(** What a successful [Store] of [w] makes of the store. *)
Definition write (w : option Lease) (st : Etcd) : Etcd :=
  match w with
  | Some l => Some (<[IP l := JSON l]> (default ∅ st))
  | None => st
  end.

(** What [Store] of [w] makes of the store in the environment [e]: nothing
    when the write fails. *)
Definition attempt (e : Env) (w : option Lease) (st : Etcd) : Etcd :=
  match set_fault e with
  | None => write w st
  | Some _ => st
  end.

Definition renewed (tl : Time) (d : Duration) (nic : string) (l : Lease) : Lease :=
  {| Nic := nic; IP := IP l; FirstAssigned := FirstAssigned l;
     LastAssigned := tl; ExpireTime := tl + d |}.

Definition fresh (tl : Time) (d : Duration) (nic : string) (ip : IPv4) : Lease :=
  {| Nic := nic; IP := ip; FirstAssigned := tl;
     LastAssigned := tl; ExpireTime := tl + d |}.

Definition unbound (nic : string) (leases : gmap Z Lease) : Prop :=
  ∀ ip l, leases !! ip = Some l → Nic l ≠ nic.

Definition range_taken (p : LeasePool) (leases : gmap Z Lease) (n : Z) : Prop :=
  ∀ j, 0 ≤ j < n → is_Some (leases !! IPAdd (startIP p) j).

(** The four steps of the Assign policy: the address returned (or the
    failure) and the lease written, for a listing [leases], the reading
    [now] of the clock that decides expiry and the reading [tl] that stamps
    the lease. *)
Inductive AssignPolicy (p : LeasePool) (nic : string) (now tl : Time)
    (leases : gmap Z Lease) : result IPv4 → option Lease → Prop :=
  | assign_sticky ip l :
      leases !! ip = Some l → Nic l = nic →
      AssignPolicy p nic now tl leases (Ok (IP l))
        (Some (renewed tl (expireDuration p) nic l))
  | assign_unused i :
      unbound nic leases →
      0 ≤ i < rangeLen p →
      range_taken p leases i →
      leases !! IPAdd (startIP p) i = None →
      AssignPolicy p nic now tl leases (Ok (IPAdd (startIP p) i))
        (Some (fresh tl (expireDuration p) nic (IPAdd (startIP p) i)))
  | assign_reclaim ip l :
      unbound nic leases →
      range_taken p leases (rangeLen p) →
      leases !! ip = Some l → ExpireTime l < now →
      AssignPolicy p nic now tl leases (Ok (IP l))
        (Some (fresh tl (expireDuration p) nic (IP l)))
  | assign_full :
      unbound nic leases →
      range_taken p leases (rangeLen p) →
      (∀ ip l, leases !! ip = Some l → ¬ ExpireTime l < now) →
      AssignPolicy p nic now tl leases (Err ErrLeasePoolIsFull) None.

(** The four cases of the Request policy, [L = leases !! ip]. *)
Inductive RequestPolicy (p : LeasePool) (nic : string) (ip : IPv4)
    (now tl : Time) (leases : gmap Z Lease) : result IPv4 → option Lease → Prop :=
  | request_own L :
      leases !! ip = Some L → Nic L = nic →
      RequestPolicy p nic ip now tl leases (Ok ip)
        (Some (renewed tl (expireDuration p) nic L))
  | request_foreign_active L :
      leases !! ip = Some L → Nic L ≠ nic → now < ExpireTime L →
      RequestPolicy p nic ip now tl leases (Err ErrRefreshNoMatch) None
  | request_unbound_second k l :
      leases !! ip = None →
      leases !! k = Some l → Nic l = nic → now < ExpireTime l →
      RequestPolicy p nic ip now tl leases (Err ErrRefreshNoMatch) None
  | request_unbound_fresh :
      leases !! ip = None →
      (∀ k l, leases !! k = Some l → Nic l = nic → ¬ now < ExpireTime l) →
      RequestPolicy p nic ip now tl leases (Ok ip)
        (Some (fresh tl (expireDuration p) nic ip))
  | request_foreign_expired L :
      leases !! ip = Some L → Nic L ≠ nic → ¬ now < ExpireTime L →
      RequestPolicy p nic ip now tl leases (Err ErrRefreshNoMatch) None.

(** Go leaves the order of [range] over a map open, and etcd the order of
    the nodes of a directory: each is some permutation. *)
Definition fair (e : Env) : Prop :=
  (∀ l, range_order e l ≡ₚ l) ∧ (∀ l, node_order e l ≡ₚ l).

(** An environment without faults, in which listings keep their order. *)
Definition calm (now tl : Time) : Env :=
  {| clock_now := now; clock_lease := tl;
     get_fault := None; mkdir_fault := None; set_fault := None;
     node_order := λ l, l; range_order := λ l, l |}.

(** An environment in which every write to the store fails. *)
Definition store_down (now tl : Time) : Env :=
  {| clock_now := now; clock_lease := tl;
     get_fault := None; mkdir_fault := None;
     set_fault := Some "etcd cluster is unavailable"%string;
     node_order := λ l, l; range_order := λ l, l |}.

(** No fault of the store during the call. *)
Definition healthy (e : Env) : Prop :=
  fair e ∧ get_fault e = None ∧ mkdir_fault e = None ∧ set_fault e = None.

(** ** Sequences of calls and the invariant of the pool *)






(** The store holds the lease [l] under the key [k]. *)
Definition holds (st : Etcd) (k : Z) (l : Lease) : Prop :=
  ∃ dir, st = Some dir ∧ dir !! k = Some (JSON l).








End Dhcp.

(** * Part II: the TFTP read-only server *)

Module Tftp.

(** A Go [[]byte], and a Go [string] as its bytes. *)
Abbreviation bytes := (list ascii).

Definition str (s : string) : bytes := list_ascii_of_string s.

Definition NUL : ascii := Ascii.zero.

Definition byte_val (c : ascii) : Z := Z.of_N (N_of_ascii c).

Definition byte_of (n : Z) : ascii := ascii_of_N (Z.to_N (n mod 256)).

(** [binary.BigEndian.Uint16] and [PutUint16] on a two-byte slice. *)
Definition Uint16 (b : bytes) : Z :=
  match b with
  | b0 :: b1 :: _ => byte_val b0 * 256 + byte_val b1
  | _ => 0
  end.

Definition PutUint16 (v : Z) : bytes := [byte_of (v / 256); byte_of v].

Definition numRetries : nat := 5.

Record rrq : Type := mkRrq {
  Filename : bytes;
  BlockSize : Z
}.

(** [bytes.IndexByte]; [None] stands for -1. *)
Fixpoint IndexByte (b : bytes) (c : ascii) : option nat :=
  match b with
  | [] => None
  | x :: rest => if decide (x = c) then Some 0%nat else S <$> IndexByte rest c
  end.

(** [nullStr] extracts a null-terminated string from the given bytes. *)
Definition nullStr (b : bytes) : bytes * bytes * bool :=
  match IndexByte b NUL with
  | None => ([], [], false)
  | Some off => (take off b, drop (off + 1) b, true)
  end.

(** [strconv.Atoi] of the Go library, [int] being 64 bits wide: an optional
    sign, then one or more decimal digits, the value within the range of
    [int]. *)
Fixpoint digits (s : bytes) (acc : Z) : option Z :=
  match s with
  | [] => Some acc
  | c :: rest =>
      let d := byte_val c - 48 in
      if (0 <=? d) && (d <=? 9) then digits rest (acc * 10 + d) else None
  end.

Definition Atoi (s : bytes) : option Z :=
  match s with
  | [] => None
  | c :: rest =>
      if decide (c = "-"%char) then
        match rest with
        | [] => None
        | _ => n ← digits rest 0; if n <=? 2 ^ 63 then Some (- n) else None
        end
      else if decide (c = "+"%char) then
        match rest with
        | [] => None
        | _ => n ← digits rest 0; if n <? 2 ^ 63 then Some n else None
        end
      else n ← digits s 0; if n <? 2 ^ 63 then Some n else None
  end.

(** The verb [%d] of [fmt.Sprintf]. *)
Definition itoa (n : Z) : bytes := str (NilZero.string_of_int (Z.to_int n)).

(** The errors of [parseRRQ], one constructor per [fmt.Errorf]. *)
Inductive parse_error : Type :=
  | TooSmall
  | NotRRQ
  | NoFilename
  | NoTransferMode
  | UnsupportedMode (mode : bytes)
  | UnterminatedOptionName
  | UnterminatedOptionValue (opt : bytes)
  | NonInteger (valStr opt : bytes)
  | UnsupportedBlocksize (val : Z).

(** What [parseRRQ] returns; [Unfinished] is the model running out of fuel
    in the loop over the options, which never happens. *)
Inductive parsed : Type :=
  | Accept (req : rrq)
  | Reject (err : parse_error)
  | Unfinished.

(** The loop [for len(b) > 0] of [parseRRQ]. *)
Fixpoint parseOptions (fuel : nat) (b : bytes) (req : rrq) : parsed :=
  match b with
  | [] => Accept req
  | _ :: _ =>
      match fuel with
      | O => Unfinished
      | S fuel' =>
          let '(opt, b1, ok) := nullStr b in
          if negb ok then Reject UnterminatedOptionName else
          let '(valStr, b2, ok) := nullStr b1 in
          if negb ok then Reject (UnterminatedOptionValue opt) else
          match Atoi valStr with
          | None => Reject (NonInteger valStr opt)
          | Some val =>
              if decide (opt = str "blksize") then
                if (val <? 8) || (65464 <? val) then
                  Reject (UnsupportedBlocksize val)
                else
                  parseOptions fuel' b2
                    {| Filename := Filename req;
                       BlockSize := if 1450 <? val then 1450 else val |}
              else parseOptions fuel' b2 req
          end
      end
  end.

(** [parseRRQ] parses a raw TFTP packet into an rrq struct. *)
Definition parseRRQ (b : bytes) : parsed :=
  if (length b <? 6)%nat then Reject TooSmall else
  if negb (Uint16 (take 2 b) =? 1) then Reject NotRRQ else
  let '(fname, b1, ok) := nullStr (drop 2 b) in
  if negb ok then Reject NoFilename else
  let '(mode, b2, ok) := nullStr b1 in
  if negb ok then Reject NoTransferMode else
  if negb (bool_decide (mode = str "octet")) then Reject (UnsupportedMode mode) else
  parseOptions (length b2) b2 {| Filename := fname; BlockSize := 0 |}.

(** [mkError] constructs a TFTP ERROR packet from the text of an error. *)
Definition mkError (s : bytes) : bytes :=
  <[1%nat := byte_of 5]> (replicate 4 NUL) ++ s ++ [NUL].

(** What a [Read] on the connection gives. *)
Inductive read : Type :=
  | Timeout
  | ReadError (msg : string)
  | Datagram (d : bytes).

Inductive send_error : Type :=
  | ReadFailed (msg : string)
  | ClientAborted (msg : bytes)
  | TimedOut (seq : Z).

(** How the wait for an acknowledgement ends: [continue Tx], [return nil],
    [return err], or the script of reads ran out. *)
Inductive verdict : Type :=
  | Retry
  | Acked
  | Stop (err : send_error)
  | Starved.

(** [conn.Read(recv[:])] of a datagram: its first bytes overwrite the
    buffer, the rest of the buffer stays. *)
Definition fill (recv d : bytes) : nat * bytes :=
  let n := Nat.min (length d) (length recv) in
  (n, take n d ++ drop n recv).

(** The inner [for] of [sendPacket]: one attempt's reads. *)
Fixpoint await (seq : Z) (recv : bytes) (reads : list read)
    : verdict * list read :=
  match reads with
  | [] => (Starved, [])
  | Timeout :: rest => (Retry, rest)
  | ReadError msg :: rest => (Stop (ReadFailed msg), rest)
  | Datagram d :: rest =>
      let '(n, recv) := fill recv d in
      if (n <? 4)%nat then await seq recv rest else
      let op := Uint16 (take 2 recv) in
      if op =? 4 then
        if Uint16 (take 2 (drop 2 recv)) =? seq then (Acked, rest)
        else await seq recv rest
      else if op =? 5 then
        let '(msg, _, _) := nullStr (drop 4 recv) in
        (Stop (ClientAborted msg), rest)
      else await seq recv rest
  end.

(** The loop [Tx] of [sendPacket], [tries] attempts left; the result, the
    packets written and the reads left. *)
Fixpoint attempts (tries : nat) (b : bytes) (seq : Z) (reads : list read)
    : verdict * list bytes * list read :=
  match tries with
  | O => (Stop (TimedOut seq), [], reads)
  | S tries' =>
      match await seq (replicate 256 NUL) reads with
      | (Retry, rest) =>
          let '(v, ws, rest') := attempts tries' b seq rest in
          (v, b :: ws, rest')
      | (v, rest) => (v, [b], rest)
      end
  end.

(** [sendPacket] sends one TFTP packet to the client and waits for an ack. *)
Definition sendPacket (b : bytes) (seq : Z) (reads : list read)
    : verdict * list bytes * list read :=
  attempts numRetries b seq reads.

(** How [transfer] ends: the three log lines and the [Debug] line, or the
    model out of fuel or of reads. *)
Inductive outcome : Type :=
  | DialFailed
  | OackRefused (err : send_error)
  | TransferFailed (err : send_error)
  | Sent
  | Stuck.

(** The loop [for len(toTX) > 0] of [transfer]. *)
Fixpoint dataLoop (fuel : nat) (bsize : Z) (toTX : bytes) (seq : Z)
    (reads : list read) : outcome * list bytes * list read :=
  match toTX with
  | [] => (Sent, [], reads)
  | _ :: _ =>
      match fuel with
      | O => (Stuck, [], reads)
      | S fuel' =>
          let l := Z.of_nat (length toTX) in
          let l := if bsize <? l then bsize else l in
          let buf := [NUL; byte_of 3] ++ PutUint16 seq ++ take (Z.to_nat l) toTX in
          match sendPacket buf seq reads with
          | (Acked, ws, rest) =>
              let '(o, ws', rest') :=
                dataLoop fuel' bsize (drop (Z.to_nat l) toTX)
                  ((seq + 1) mod 65536) rest in
              (o, ws ++ ws', rest')
          | (Stop err, ws, rest) => (TransferFailed err, ws, rest)
          | (_, ws, rest) => (Stuck, ws, rest)
          end
      end
  end.

(** [transfer] handles a full TFTP transaction with a client; [dial] tells
    whether [net.Dial] succeeded. *)
Definition transfer (dial : bool) (req : rrq) (pxelinux : bytes)
    (reads : list read) : outcome * list bytes * list read :=
  if negb dial then (DialFailed, [], reads) else
  if 0 <? BlockSize req then
    let pkt := [NUL; byte_of 6] ++ str "blksize" ++ [NUL]
               ++ itoa (BlockSize req) ++ [NUL] in
    match sendPacket pkt 0 reads with
    | (Acked, ws, rest) =>
        let '(o, ws', rest') :=
          dataLoop (length pxelinux) (BlockSize req) pxelinux 1 rest in
        (o, ws ++ ws', rest')
    | (Stop err, ws, rest) => (OackRefused err, ws, rest)
    | (_, ws, rest) => (Stuck, ws, rest)
    end
  else dataLoop (length pxelinux) 512 pxelinux 1 reads.

(** One turn of the loop of [Serve] on a datagram read into the 512-byte
    buffer: an ERROR packet written back to the sender, or a transfer
    started; [text] renders an error as [err.Error()] does. *)
Inductive served : Type :=
  | Replied (pkt : bytes)
  | Started (req : rrq)
  | Hung.

Definition serve (text : parse_error → bytes) (datagram : bytes) : served :=
  match parseRRQ (take 512 datagram) with
  | Reject err => Replied (mkError (text err))
  | Accept req => Started req
  | Unfinished => Hung
  end.

(** ** The wire format, for stating the properties *)

Definition nul_free (s : bytes) : Prop := NUL ∉ s.

(** A null-terminated field, and the [(name, value)] pairs of options. *)
Definition field (s : bytes) : bytes := s ++ [NUL].

Definition encodeOptions (opts : list (bytes * bytes)) : bytes :=
  concat ((λ o, field o.1 ++ field o.2) <$> opts).

(** A read request in octet mode. *)
Definition mkRRQ (fname : bytes) (opts : list (bytes * bytes)) : bytes :=
  PutUint16 1 ++ field fname ++ field (str "octet") ++ encodeOptions opts.

(** The ACK of block [seq], the DATA packet of block [seq], the OACK of a
    block size. *)
Definition mkACK (seq : Z) : bytes := PutUint16 4 ++ PutUint16 seq.

Definition mkDATA (seq : Z) (payload : bytes) : bytes :=
  PutUint16 3 ++ PutUint16 seq ++ payload.

Definition mkOACK (blksize : Z) : bytes :=
  PutUint16 6 ++ field (str "blksize") ++ field (itoa blksize).

(** An ERROR packet as a client sends it. *)
Definition mkERROR (code : Z) (msg : bytes) : bytes :=
  PutUint16 5 ++ PutUint16 code ++ field msg.

(** The datagrams [sendPacket] passes over while it waits for the ACK of
    [seq]: shorter than four bytes, of an opcode other than ACK and ERROR,
    or the ACK of another block. *)
Definition passed_over (seq : Z) (d : bytes) : bool :=
  (length d <? 4)%nat
  || negb (Uint16 (take 2 d) =? 4) && negb (Uint16 (take 2 d) =? 5)
  || (Uint16 (take 2 d) =? 4) && negb (Uint16 (take 2 (drop 2 d)) =? seq).

(** The ACK of block [seq], possibly followed by more bytes. *)
Definition acks (seq : Z) (d : bytes) : bool :=
  (4 <=? length d)%nat && (Uint16 (take 2 d) =? 4)
  && (Uint16 (take 2 (drop 2 d)) =? seq).

(** An ERROR packet: four bytes or more, opcode 5. *)
Definition errs (d : bytes) : bool :=
  (4 <=? length d)%nat && (Uint16 (take 2 d) =? 5).

(** Attempts that end in a timeout: in each, some datagrams that are passed
    over, then the deadline. *)
Definition silence (rounds : list (list bytes)) : list read :=
  concat ((λ ds, (Datagram <$> ds) ++ [Timeout]) <$> rounds).

(** The blocks of [bsize] bytes into which a payload is cut, the DATA
    packets that carry them numbered from [seq] on, and a client that
    acknowledges [n] blocks from [seq] on, each at the first attempt. *)
Fixpoint cut (fuel bsize : nat) (toTX : bytes) : list bytes :=
  match toTX, fuel with
  | [], _ => []
  | _ :: _, O => []
  | _ :: _, S fuel' => take bsize toTX :: cut fuel' bsize (drop bsize toTX)
  end.

Fixpoint numbered (seq : Z) (blocks : list bytes) : list bytes :=
  match blocks with
  | [] => []
  | block :: rest => mkDATA seq block :: numbered ((seq + 1) mod 65536) rest
  end.

Fixpoint prompt (seq : Z) (n : nat) : list read :=
  match n with
  | O => []
  | S n' => Datagram (mkACK seq) :: prompt ((seq + 1) mod 65536) n'
  end.

(** The options of a request, pair by pair, in the words of the
    specification: the value is a decimal integer; [blksize] lies in
    [8, 65464] and is stored as [min value 1450]; other options are
    ignored. *)
Fixpoint applyOptions (opts : list (bytes * bytes)) (req : rrq) : parsed :=
  match opts with
  | [] => Accept req
  | (opt, valStr) :: rest =>
      match Atoi valStr with
      | None => Reject (NonInteger valStr opt)
      | Some val =>
          if decide (opt = str "blksize") then
            if decide (8 ≤ val ≤ 65464) then
              applyOptions rest
                {| Filename := Filename req; BlockSize := Z.min val 1450 |}
            else Reject (UnsupportedBlocksize val)
          else applyOptions rest req
      end
  end.

(** The block size [transfer] works with, and the first exchange when one
    was negotiated. *)
Definition blockSizeOf (req : rrq) : Z :=
  if 0 <? BlockSize req then BlockSize req else 512.

Definition oackOf (req : rrq) : list bytes :=
  if 0 <? BlockSize req then [mkOACK (BlockSize req)] else [].

Definition oackAcked (req : rrq) : list read :=
  if 0 <? BlockSize req then [Datagram (mkACK 0)] else [].

End Tftp.

(** * Facts about the lease pool *)

Section DhcpFacts.
Import Dhcp.

Lemma find_first {A} (f : A → bool) (l : list A) x :
  find f l = Some x →
  ∃ i : nat, l !! i = Some x ∧ f x = true ∧
      ∀ (j : nat) y, (j < i)%nat → l !! j = Some y → f y = false.
Proof.
  induction l as [|a l IH]; simpl; [discriminate|].
  destruct (f a) eqn:Ha.
  - intros [= ->]. exists 0%nat. repeat split; auto. intros j y Hj. lia.
  - intros Hx. destruct (IH Hx) as (i & Hi & Hf & Hlt).
    exists (S i). repeat split; auto.
    intros [|j] y Hj; simpl.
    + intros [= ->]. exact Ha.
    + apply Hlt. lia.
Qed.

Lemma find_range_some (e : Env) (f : Z * Lease → bool) (m : gmap Z Lease) k l :
  fair e →
  find f (range_order e (map_to_list m)) = Some (k, l) →
  m !! k = Some l ∧ f (k, l) = true.
Proof.
  intros [Hr _] Hf. apply find_some in Hf as [Hin Hk]. split; [|done].
  apply elem_of_map_to_list. rewrite <- (Hr (map_to_list m)).
  by apply list_elem_of_In.
Qed.

Lemma find_range_none (e : Env) (f : Z * Lease → bool) (m : gmap Z Lease) :
  fair e →
  find f (range_order e (map_to_list m)) = None →
  ∀ k l, m !! k = Some l → f (k, l) = false.
Proof.
  intros [Hr _] Hf k l Hk. eapply find_none; [exact Hf|].
  apply list_elem_of_In. rewrite (Hr (map_to_list m)).
  by apply elem_of_map_to_list.
Qed.

Lemma find_unseen_some (p : LeasePool) (leases : gmap Z Lease) ip :
  find (unseen leases) (IPAdd (startIP p) <$> seqZ 0 (rangeLen p)) = Some ip →
  ∃ i, 0 ≤ i < rangeLen p ∧ ip = IPAdd (startIP p) i ∧
       leases !! ip = None ∧ range_taken p leases i.
Proof.
  intros Hf. apply find_first in Hf as (n & Hn & Hu & Hlt).
  rewrite list_lookup_fmap in Hn.
  destruct (seqZ 0 (rangeLen p) !! n) as [i|] eqn:Hi; [|discriminate].
  injection Hn as <-. apply lookup_seqZ in Hi as [-> Hi].
  rewrite Z.add_0_l in Hu |- *.
  exists (Z.of_nat n). split; [lia|]. split; [done|]. split.
  - unfold unseen in Hu. by apply bool_decide_eq_true in Hu.
  - intros j Hj.
    specialize (Hlt (Z.to_nat j) (IPAdd (startIP p) j)).
    assert (Hlk : (IPAdd (startIP p) <$> seqZ 0 (rangeLen p)) !! Z.to_nat j
                  = Some (IPAdd (startIP p) j)).
    { rewrite list_lookup_fmap.
      assert (seqZ 0 (rangeLen p) !! Z.to_nat j = Some j) as ->; [|done].
      apply lookup_seqZ. lia. }
    specialize (Hlt ltac:(lia) Hlk). unfold unseen in Hlt.
    apply bool_decide_eq_false in Hlt.
    destruct (leases !! IPAdd (startIP p) j); [eauto|done].
Qed.

Lemma find_unseen_none (p : LeasePool) (leases : gmap Z Lease) :
  find (unseen leases) (IPAdd (startIP p) <$> seqZ 0 (rangeLen p)) = None →
  range_taken p leases (rangeLen p).
Proof.
  intros Hf j Hj.
  assert (Hin : In (IPAdd (startIP p) j) (IPAdd (startIP p) <$> seqZ 0 (rangeLen p))).
  { apply list_elem_of_In, list_elem_of_fmap. exists j. split; [done|].
    apply elem_of_seqZ. lia. }
  pose proof (find_none _ _ Hf _ Hin) as Hu. unfold unseen in Hu.
  apply bool_decide_eq_false in Hu.
  destruct (leases !! IPAdd (startIP p) j); [eauto|done].
Qed.

Lemma collect_keyed nodes acc m :
  collect nodes acc = Some m →
  (∀ k l, acc !! k = Some l → IP l = k) →
  ∀ k l, m !! k = Some l → IP l = k.
Proof.
  revert acc. induction nodes as [|[key v] nodes IH]; simpl; intros acc.
  - intros [= ->]. auto.
  - destruct (Unmarshal v) as [lease|]; [|discriminate].
    intros Hc Hacc. apply (IH _ Hc).
    intros k l. rewrite lookup_insert. case_decide; [|by auto].
    intros [= ->]. done.
Qed.

Lemma Leases_keyed e st st1 leases :
  Leases e st = (st1, Ok leases) →
  ∀ k l, leases !! k = Some l → IP l = k.
Proof.
  unfold Leases. destruct (get_fault e); [discriminate|].
  destruct st as [dir|].
  - destruct (collect _ ∅) as [m|] eqn:Hc; [|discriminate].
    intros [= <- <-]. eapply collect_keyed; [exact Hc|].
    intros k l. by rewrite lookup_empty.
  - destruct (mkdir_fault e); [discriminate|].
    intros [= <- <-] k l. by rewrite lookup_empty.
Qed.

Lemma Store_write e lease st :
  set_fault e = None → Store e lease st = (write (Some lease) st, None).
Proof. unfold Store. by intros ->. Qed.

Lemma collect_fails nodes acc k text :
  (k, Malformed text) ∈ nodes → collect nodes acc = None.
Proof.
  revert acc. induction nodes as [|[key v] nodes IH]; intros acc Hin.
  - by apply elem_of_nil in Hin.
  - apply elem_of_cons in Hin as [[= <- <-]|Hin]; simpl; [done|].
    destruct (Unmarshal v); [by apply IH|done].
Qed.

Lemma collect_succeeds nodes acc :
  (∀ k v, (k, v) ∈ nodes → is_Some (Unmarshal v)) →
  is_Some (collect nodes acc).
Proof.
  revert acc. induction nodes as [|[key v] nodes IH]; intros acc Hall; simpl.
  - eauto.
  - destruct (Hall key v) as [l ->]; [by left|].
    apply IH. intros k' v' Hin. apply (Hall k'). by right.
Qed.

Lemma collect_origin nodes acc m ip l :
  collect nodes acc = Some m → m !! ip = Some l →
  acc !! ip = Some l ∨ ∃ k, (k, JSON l) ∈ nodes.
Proof.
  revert acc. induction nodes as [|[key v] nodes IH]; simpl; intros acc.
  - intros [= ->]. auto.
  - destruct v as [lease|text]; simpl; [|discriminate].
    intros Hc Hm. destruct (IH _ Hc Hm) as [Hacc|[k Hk]].
    + rewrite lookup_insert in Hacc. case_decide.
      * injection Hacc as ->. right. exists key. by left.
      * by left.
    + right. exists k. by right.
Qed.

Lemma collect_covers nodes acc m :
  collect nodes acc = Some m →
  (∀ ip, is_Some (acc !! ip) → is_Some (m !! ip)) ∧
  (∀ k l, (k, JSON l) ∈ nodes → is_Some (m !! IP l)).
Proof.
  revert acc. induction nodes as [|[key v] nodes IH]; simpl; intros acc.
  - intros [= ->]. split; [done|]. intros k l Hin. by apply elem_of_nil in Hin.
  - destruct v as [lease|text]; simpl; [|discriminate].
    intros Hc. destruct (IH _ Hc) as [Hacc Hnodes]. split.
    + intros ip Hip. apply Hacc. rewrite lookup_insert. case_decide; eauto.
    + intros k l Hin. apply elem_of_cons in Hin as [[= <- <-]|Hin]; [|eauto].
      apply Hacc. rewrite lookup_insert_eq. eauto.
Qed.

(** With every node stored under the key of its lease, the listing is the
    directory itself. *)
Lemma collect_keyed_exact nodes acc m :
  NoDup nodes.*1 →
  (∀ k l, (k, JSON l) ∈ nodes → IP l = k) →
  collect nodes acc = Some m →
  ∀ k l, m !! k = Some l ↔
         (k, JSON l) ∈ nodes ∨ ((k ∉ nodes.*1) ∧ acc !! k = Some l).
Proof.
  revert acc. induction nodes as [|[key v] nodes IH]; simpl; intros acc Hnd Hkeyed.
  - intros [= ->] k l. split.
    + intros Hk. right. split; [|done]. apply not_elem_of_nil.
    + intros [Hin|[_ Hk]]; [by apply elem_of_nil in Hin|done].
  - destruct v as [lease|text]; simpl; [|discriminate].
    apply NoDup_cons in Hnd as [Hfresh Hnd].
    assert (Hlease : IP lease = key) by (apply Hkeyed; by left).
    intros Hc k l. rewrite (IH _ Hnd (λ k l H, Hkeyed k l (proj2 (elem_of_cons _ _ _) (or_intror H))) Hc).
    rewrite Hlease, lookup_insert, elem_of_cons, not_elem_of_cons. split.
    + intros [Hin|[Hk Hacc]]; [by auto|].
      case_decide as Hd; [|by auto].
      injection Hacc as ->. subst k. left. by left.
    + intros [[[= -> <-]|Hin]|[[Hne Hk] Hacc]].
      * right. split; [done|]. by rewrite decide_True.
      * by left.
      * right. split; [done|]. by rewrite decide_False.
Qed.

Lemma fair_calm now tl : fair (calm now tl).
Proof. split; intros l; reflexivity. Qed.

Lemma Store_attempt e lease st :
  Store e lease st = (attempt e (Some lease) st, EtcdFailure <$> set_fault e).
Proof. unfold Store, attempt. by destruct (set_fault e). Qed.

Ltac policy_case :=
  rewrite Store_attempt; simpl;
  eexists _, (Some _); split; [|split; [reflexivity|]].

(** The outcome of [Assign] whether or not the store accepts the write. *)
Lemma Assign_cases (e : Env) (p : LeasePool) (nic : string)
    (st st1 : Etcd) (leases : gmap Z Lease) :
  fair e →
  Leases e st = (st1, Ok leases) →
  ∃ r w, AssignPolicy p nic (clock_now e) (clock_lease e) leases r w ∧
         (Assign e p nic st).1 = attempt e w st1 ∧
         (set_fault e = None → (Assign e p nic st).2 = r).
Proof.
  intros Hfair HL. unfold Assign. rewrite HL.
  destruct (find (has_nic nic) _) as [[k lease]|] eqn:Hsticky.
  - apply (find_range_some e) in Hsticky as [Hk Hn]; [|done].
    apply bool_decide_eq_true in Hn. simpl in Hn.
    policy_case; [|done].
    by apply (assign_sticky _ _ _ _ _ k lease).
  - assert (Hunbound : unbound nic leases).
    { intros k l Hk. apply (find_range_none e _ _ Hfair Hsticky) in Hk.
      by apply bool_decide_eq_false in Hk. }
    destruct (find (unseen leases) _) as [ip|] eqn:Hunseen.
    + apply find_unseen_some in Hunseen as (i & Hi & -> & Hnone & Htaken).
      rewrite Store_attempt.
      exists (Ok (IPAdd (startIP p) i)),
        (Some (fresh (clock_lease e) (expireDuration p) nic (IPAdd (startIP p) i))).
      split; [by apply assign_unused|].
      destruct (set_fault e); simpl; split; done.
    + apply find_unseen_none in Hunseen.
      destruct (find (expired (clock_now e)) _) as [[k lease]|] eqn:Hexp.
      * apply (find_range_some e) in Hexp as [Hk Hx]; [|done].
        apply bool_decide_eq_true in Hx. simpl in Hx.
        policy_case; [|done].
        by apply (assign_reclaim _ _ _ _ _ k lease).
      * exists (Err ErrLeasePoolIsFull), None. simpl.
        split; [|split; [by unfold attempt; destruct (set_fault e)|done]].
        apply assign_full; [done..|].
        intros k l Hk. apply (find_range_none e _ _ Hfair Hexp) in Hk.
        by apply bool_decide_eq_false in Hk.
Qed.

(** The outcome of [Request] whether or not the store accepts the write. *)
Lemma Request_cases (e : Env) (p : LeasePool) (nic : string)
    (ip : IPv4) (st st1 : Etcd) (leases : gmap Z Lease) :
  fair e →
  Leases e st = (st1, Ok leases) →
  ∃ r w, RequestPolicy p nic ip (clock_now e) (clock_lease e) leases r w ∧
         (Request e p nic ip st).1 = attempt e w st1 ∧
         (set_fault e = None → (Request e p nic ip st).2 = r).
Proof.
  intros Hfair HL. unfold Request. rewrite HL.
  assert (Hnone : attempt e None st1 = st1)
    by (unfold attempt; by destruct (set_fault e)).
  destruct (leases !! ip) as [L|] eqn:HLip.
  - pose proof (Leases_keyed _ _ _ _ HL _ _ HLip) as Hkey.
    case_bool_decide as Hnic.
    + subst ip. policy_case; [|done].
      by apply (request_own _ _ _ _ _ _ L).
    + case_bool_decide as Hact.
      * exists (Err ErrRefreshNoMatch), None. split; [|done].
        by apply (request_foreign_active _ _ _ _ _ _ L).
      * exists (Err ErrRefreshNoMatch), None. split; [|done].
        by apply (request_foreign_expired _ _ _ _ _ _ L).
  - destruct (find (active_for nic (clock_now e)) _) as [[k l]|] eqn:Hact.
    + apply (find_range_some e) in Hact as [Hk Ha]; [|done].
      apply andb_true_iff in Ha as [Hn Hx].
      apply bool_decide_eq_true in Hn, Hx. simpl in Hn, Hx.
      exists (Err ErrRefreshNoMatch), None. split; [|done].
      by apply (request_unbound_second _ _ _ _ _ _ k l).
    + policy_case; [|done].
      apply request_unbound_fresh; [done|].
      intros k l Hk Hn Hx.
      apply (find_range_none e _ _ Hfair Hact) in Hk.
      apply andb_false_iff in Hk as [Hk|Hk];
        apply bool_decide_eq_false in Hk; simpl in Hk; done.
Qed.

(** C1. Whenever the listing of the pool succeeds with [leases] and the
    store accepts the write, [Assign nic] returns the address and writes the
    lease that the four-step policy (sticky, first unused address of the
    range, reclamation of an expired lease with a new [FirstAssigned],
    [ErrLeasePoolIsFull]) prescribes, each step being taken only when the
    earlier ones do not apply. *)
Theorem Assign_follows_policy (e : Env) (p : LeasePool) (nic : string)
    (st st1 : Etcd) (leases : gmap Z Lease) :
  fair e → set_fault e = None →
  Leases e st = (st1, Ok leases) →
  ∃ r w, AssignPolicy p nic (clock_now e) (clock_lease e) leases r w ∧
         Assign e p nic st = (write w st1, r).
Proof.
  intros Hfair Hset HL.
  destruct (Assign_cases e p nic st st1 leases Hfair HL) as (r & w & HP & H1 & H2).
  exists r, w. split; [done|].
  destruct (Assign e p nic st) as [st2 r2]; simpl in *.
  rewrite H1, (H2 Hset). unfold attempt. by rewrite Hset.
Qed.

Lemma Assign_follows_policy_witness :
  ∃ r w, AssignPolicy (mkLeasePool 10 2 100) "aa" 250 251
           {[10 := mkLease "bb" 10 0 0 100; 11 := mkLease "cc" 11 5 5 400]} r w ∧
         Assign (calm 250 251) (mkLeasePool 10 2 100) "aa"
           (Some {[10 := JSON (mkLease "bb" 10 0 0 100);
                   11 := JSON (mkLease "cc" 11 5 5 400)]})
         = (write w (Some {[10 := JSON (mkLease "bb" 10 0 0 100);
                            11 := JSON (mkLease "cc" 11 5 5 400)]}), r).
Proof.
  apply (Assign_follows_policy (calm 250 251) (mkLeasePool 10 2 100) "aa").
  - apply fair_calm.
  - reflexivity.
  - vm_compute. reflexivity.
Defined.

(** C2. Whenever the listing succeeds with [leases] and the store accepts
    the write, [Request nic ip] does what the Request policy says for
    [L = leases !! ip]: renewal for the own lease whatever its expiry,
    [ErrRefreshNoMatch] for a foreign lease (active or expired) and for a
    free address while [nic] holds an unexpired lease elsewhere, a fresh
    lease otherwise. *)
Theorem Request_follows_policy (e : Env) (p : LeasePool) (nic : string)
    (ip : IPv4) (st st1 : Etcd) (leases : gmap Z Lease) :
  fair e → set_fault e = None →
  Leases e st = (st1, Ok leases) →
  ∃ r w, RequestPolicy p nic ip (clock_now e) (clock_lease e) leases r w ∧
         Request e p nic ip st = (write w st1, r).
Proof.
  intros Hfair Hset HL.
  destruct (Request_cases e p nic ip st st1 leases Hfair HL) as (r & w & HP & H1 & H2).
  exists r, w. split; [done|].
  destruct (Request e p nic ip st) as [st2 r2]; simpl in *.
  rewrite H1, (H2 Hset). unfold attempt. by rewrite Hset.
Qed.

Lemma Request_follows_policy_witness :
  ∃ r w, RequestPolicy (mkLeasePool 10 2 100) "bb" 11 250 251
           {[10 := mkLease "bb" 10 0 0 100; 11 := mkLease "cc" 11 5 5 200]} r w ∧
         Request (calm 250 251) (mkLeasePool 10 2 100) "bb" 11
           (Some {[10 := JSON (mkLease "bb" 10 0 0 100);
                   11 := JSON (mkLease "cc" 11 5 5 200)]})
         = (write w (Some {[10 := JSON (mkLease "bb" 10 0 0 100);
                            11 := JSON (mkLease "cc" 11 5 5 200)]}), r).
Proof.
  apply (Request_follows_policy (calm 250 251) (mkLeasePool 10 2 100) "bb" 11).
  - apply fair_calm.
  - reflexivity.
  - vm_compute. reflexivity.
Defined.

(** C8. When [Get] does not fail: a missing subtree is created as an empty
    directory (if that [Set] succeeds) and the empty map is returned; a
    directory in which every value deserialises is listed in full, every
    lease under the key of its own address, and exactly as stored when
    every record sits under its own key; a single value that does not
    deserialise makes the whole listing fail with [ErrFoundInvalidLease]. *)
Theorem Leases_lists_or_aborts (e : Env) (dir : gmap Z Value) :
  fair e → get_fault e = None →
  (mkdir_fault e = None → Leases e None = (Some ∅, Ok ∅)) ∧
  ((∀ k v, dir !! k = Some v → is_Some (Unmarshal v)) →
   ∃ leases, Leases e (Some dir) = (Some dir, Ok leases) ∧
     (∀ k l, dir !! k = Some (JSON l) → is_Some (leases !! IP l)) ∧
     (∀ ip l, leases !! ip = Some l →
        IP l = ip ∧ ∃ k, dir !! k = Some (JSON l)) ∧
     ((∀ k l, dir !! k = Some (JSON l) → IP l = k) →
      ∀ k l, leases !! k = Some l ↔ dir !! k = Some (JSON l))) ∧
  (∀ k text, dir !! k = Some (Malformed text) →
     Leases e (Some dir) = (Some dir, Err ErrFoundInvalidLease)).
Proof.
  intros [_ Hn] Hget. unfold Leases. rewrite Hget.
  assert (Hmem : ∀ k v, (k, v) ∈ node_order e (map_to_list dir) ↔ dir !! k = Some v).
  { intros k v. by rewrite (Hn (map_to_list dir)), elem_of_map_to_list. }
  split; [by intros ->|]. split.
  - intros Hall.
    destruct (collect_succeeds (node_order e (map_to_list dir)) ∅) as [m Hm].
    { intros k v Hin. apply (Hall k). by apply Hmem. }
    rewrite Hm. exists m. split; [done|]. split; [|split].
    + intros k l Hk. apply (collect_covers _ _ _ Hm) with k. by apply Hmem.
    + intros ip l Hip. split.
      * eapply collect_keyed; [exact Hm| |exact Hip].
        intros k' l'. by rewrite lookup_empty.
      * destruct (collect_origin _ _ _ _ _ Hm Hip) as [Hacc|[k Hk]].
        -- by rewrite lookup_empty in Hacc.
        -- exists k. by apply Hmem.
    + intros Hkeyed k l.
      assert (Hnd : NoDup (node_order e (map_to_list dir)).*1).
      { rewrite (Hn (map_to_list dir)). apply NoDup_fst_map_to_list. }
      rewrite (collect_keyed_exact _ _ _ Hnd
                 (λ k l H, Hkeyed k l (proj1 (Hmem _ _) H)) Hm).
      rewrite Hmem, lookup_empty. split; [|by left].
      intros [Hk|[_ Hk]]; [exact Hk|discriminate].
  - intros k text Hk. apply Hmem in Hk.
    by rewrite (collect_fails _ _ _ _ Hk).
Qed.

Lemma Leases_lists_or_aborts_witness :
  (mkdir_fault (calm 0 0) = None → Leases (calm 0 0) None = (Some ∅, Ok ∅)) ∧
  ((∀ k v, ({[10 := JSON (mkLease "bb" 10 0 0 100)]} : gmap Z Value) !! k = Some v →
           is_Some (Unmarshal v)) →
   ∃ leases, Leases (calm 0 0) (Some {[10 := JSON (mkLease "bb" 10 0 0 100)]})
             = (Some {[10 := JSON (mkLease "bb" 10 0 0 100)]}, Ok leases) ∧
     (∀ k l, ({[10 := JSON (mkLease "bb" 10 0 0 100)]} : gmap Z Value) !! k
             = Some (JSON l) → is_Some (leases !! IP l)) ∧
     (∀ ip l, leases !! ip = Some l →
        IP l = ip ∧ ∃ k, ({[10 := JSON (mkLease "bb" 10 0 0 100)]} : gmap Z Value) !! k
                         = Some (JSON l)) ∧
     ((∀ k l, ({[10 := JSON (mkLease "bb" 10 0 0 100)]} : gmap Z Value) !! k
              = Some (JSON l) → IP l = k) →
      ∀ k l, leases !! k = Some l ↔
             ({[10 := JSON (mkLease "bb" 10 0 0 100)]} : gmap Z Value) !! k
             = Some (JSON l))) ∧
  (∀ k text, ({[10 := JSON (mkLease "bb" 10 0 0 100)]} : gmap Z Value) !! k
             = Some (Malformed text) →
     Leases (calm 0 0) (Some {[10 := JSON (mkLease "bb" 10 0 0 100)]})
     = (Some {[10 := JSON (mkLease "bb" 10 0 0 100)]}, Err ErrFoundInvalidLease)).
Proof.
  apply (Leases_lists_or_aborts (calm 0 0) {[10 := JSON (mkLease "bb" 10 0 0 100)]}).
  - apply fair_calm.
  - reflexivity.
Defined.

Lemma healthy_calm now tl : healthy (calm now tl).
Proof. split; [apply fair_calm|done]. Qed.

Lemma range_order_nil (e : Env) : fair e → range_order e [] = [].
Proof. intros [Hr _]. by apply Permutation_nil_r. Qed.

Lemma node_order_nil (e : Env) : fair e → node_order e [] = [].
Proof. intros [_ Hn]. by apply Permutation_nil_r. Qed.

Lemma range_order_singleton (e : Env) x : fair e → range_order e [x] = [x].
Proof. intros [Hr _]. by apply Permutation_singleton_r. Qed.

Lemma node_order_singleton (e : Env) x : fair e → node_order e [x] = [x].
Proof. intros [_ Hn]. by apply Permutation_singleton_r. Qed.

Lemma Leases_empty (e : Env) (st0 : Etcd) :
  healthy e → st0 = None ∨ st0 = Some ∅ →
  Leases e st0 = (Some ∅, Ok ∅).
Proof.
  intros (Hfair & Hget & Hmk & _) [-> | ->]; unfold Leases; rewrite Hget.
  - by rewrite Hmk.
  - by rewrite map_to_list_empty, node_order_nil.
Qed.

(** C9. From an empty pool with a non-empty range and no fault of the
    store, two successive [Assign m] return the same address; the first
    creates the lease, the second keeps its [FirstAssigned] and sets
    [LastAssigned] to the new reading of the clock and [ExpireTime] to that
    reading plus the lease duration. *)
Theorem Assign_twice_sticky (e1 e2 : Env) (p : LeasePool) (m : string)
    (st0 : Etcd) :
  st0 = None ∨ st0 = Some ∅ →
  healthy e1 → healthy e2 → 0 < rangeLen p →
  ∃ ip l1,
    Assign e1 p m st0 = (Some {[ip := JSON l1]}, Ok ip) ∧
    FirstAssigned l1 = clock_lease e1 ∧
    Assign e2 p m (Some {[ip := JSON l1]}) =
      (Some {[ip := JSON {| Nic := m; IP := ip;
                            FirstAssigned := FirstAssigned l1;
                            LastAssigned := clock_lease e2;
                            ExpireTime := clock_lease e2 + expireDuration p |}]},
       Ok ip).
Proof.
  intros Hst0 He1 He2 HR.
  exists (IPAdd (startIP p) 0),
    (fresh (clock_lease e1) (expireDuration p) m (IPAdd (startIP p) 0)).
  split; [|split; [done|]].
  - unfold Assign. rewrite (Leases_empty e1 st0 He1 Hst0).
    destruct He1 as (Hfair & _ & _ & Hset).
    rewrite map_to_list_empty, range_order_nil by done. simpl.
    rewrite (seqZ_cons 0 (rangeLen p)) by done. simpl.
    unfold unseen at 1. rewrite lookup_empty. simpl.
    unfold Store. rewrite Hset. simpl. by rewrite insert_empty.
  - destruct He2 as (Hfair & Hget & _ & Hset).
    unfold Assign, Leases. rewrite Hget.
    rewrite map_to_list_singleton, node_order_singleton by done. simpl.
    rewrite insert_empty, map_to_list_singleton, range_order_singleton by done.
    simpl. unfold has_nic. simpl. rewrite bool_decide_eq_true_2 by done.
    unfold Store. rewrite Hset. simpl. by rewrite insert_singleton_eq.
Qed.

Lemma Assign_twice_sticky_witness :
  ∃ ip l1,
    Assign (calm 5 6) (mkLeasePool 167772170 3 3600) "aa:aa" None
      = (Some {[ip := JSON l1]}, Ok ip) ∧
    FirstAssigned l1 = clock_lease (calm 5 6) ∧
    Assign (calm 50 51) (mkLeasePool 167772170 3 3600) "aa:aa"
       (Some {[ip := JSON l1]}) =
      (Some {[ip := JSON {| Nic := "aa:aa"; IP := ip;
                            FirstAssigned := FirstAssigned l1;
                            LastAssigned := clock_lease (calm 50 51);
                            ExpireTime := clock_lease (calm 50 51)
                              + expireDuration (mkLeasePool 167772170 3 3600) |}]},
       Ok ip).
Proof.
  apply (Assign_twice_sticky (calm 5 6) (calm 50 51)
           (mkLeasePool 167772170 3 3600) "aa:aa" None).
  - by left.
  - apply healthy_calm.
  - apply healthy_calm.
  - simpl. lia.
Defined.

(** C4 (the code departs from it). With a lease of ["aa"] at address 10 and
    a store that refuses every write, the sticky step of [Assign] and the
    renewal of [Request] return the address and no error although [Store]
    reported one; the store is unchanged. *)
Theorem Assign_Request_discard_store_failure :
  let st := Some {[10 := JSON (mkLease "aa" 10 0 0 100)]} in
  let p := mkLeasePool 10 2 100 in
  (Store (store_down 50 50) (newLease 50 "aa" 10 100 (Some 0)) st).2
    = Some (EtcdFailure "etcd cluster is unavailable") ∧
  Assign (store_down 50 50) p "aa" st = (st, Ok 10) ∧
  Request (store_down 50 50) p "aa" 10 st = (st, Ok 10) ∧
  Request (store_down 50 50) p "bb" 11 st = (st, Ok 11) ∧
  Assign (store_down 150 150) (mkLeasePool 10 1 100) "bb" st = (st, Ok 10).
Proof. vm_compute. repeat split. Qed.







(** The listing of a directory whose records all deserialise and sit under
    their own keys. *)
Lemma Leases_keyed_dir (e : Env) (dir : gmap Z Value) :
  fair e → get_fault e = None →
  (∀ k v, dir !! k = Some v → ∃ l, v = JSON l ∧ IP l = k) →
  ∃ leases, Leases e (Some dir) = (Some dir, Ok leases) ∧
            ∀ k l, leases !! k = Some l ↔ dir !! k = Some (JSON l).
Proof.
  intros [_ Hn] Hget Hdir. unfold Leases. rewrite Hget.
  assert (Hmem : ∀ k v, (k, v) ∈ node_order e (map_to_list dir) ↔ dir !! k = Some v).
  { intros k v. by rewrite (Hn (map_to_list dir)), elem_of_map_to_list. }
  destruct (collect_succeeds (node_order e (map_to_list dir)) ∅) as [m Hm].
  { intros k v Hin. apply Hmem in Hin.
    destruct (Hdir k v Hin) as (l & -> & _). by exists l. }
  rewrite Hm. exists m. split; [done|]. intros k l.
  assert (Hnd : NoDup (node_order e (map_to_list dir)).*1).
  { rewrite (Hn (map_to_list dir)). apply NoDup_fst_map_to_list. }
  rewrite (collect_keyed_exact _ _ _ Hnd) by
    (try exact Hm; intros k' l' Hin; apply Hmem in Hin;
     destruct (Hdir k' _ Hin) as (l'' & [= <-] & Hk); exact Hk).
  rewrite Hmem, lookup_empty. split; [|by left].
  intros [Hk|[_ Hk]]; [exact Hk|discriminate].
Qed.











(** ** Further properties of the lease pool *)

Lemma find_range_unbound (e : Env) nic (leases : gmap Z Lease) :
  fair e → unbound nic leases →
  find (has_nic nic) (range_order e (map_to_list leases)) = None.
Proof.
  intros Hfair Hu. destruct (find _ _) as [[k l]|] eqn:Hf; [|done].
  apply (find_range_some e) in Hf as [Hk Hn]; [|done].
  apply bool_decide_eq_true in Hn. by destruct (Hu k l).
Qed.

Lemma find_unseen_taken (p : LeasePool) (leases : gmap Z Lease) :
  range_taken p leases (rangeLen p) →
  find (unseen leases) (IPAdd (startIP p) <$> seqZ 0 (rangeLen p)) = None.
Proof.
  intros Ht. destruct (find _ _) as [ip|] eqn:Hf; [|done].
  apply find_unseen_some in Hf as (i & Hi & -> & Hnone & _).
  destruct (Ht i Hi) as [l Hl]. congruence.
Qed.

Lemma Leases_malformed (e : Env) (dir : gmap Z Value) k text :
  fair e → get_fault e = None → dir !! k = Some (Malformed text) →
  Leases e (Some dir) = (Some dir, Err ErrFoundInvalidLease).
Proof.
  intros [_ Hn] Hget Hk. unfold Leases. rewrite Hget.
  rewrite (collect_fails _ _ k text); [done|].
  rewrite (Hn (map_to_list dir)). by apply elem_of_map_to_list.
Qed.

(** X1. One value of the store that does not deserialise blocks the pool:
    [Assign] and [Request] fail with [ErrFoundInvalidLease] and write
    nothing, whatever the hardware identifier and the address. *)
Theorem invalid_record_blocks_pool (e : Env) (p : LeasePool) (nic : string)
    (ip : IPv4) (dir : gmap Z Value) (k : Z) (text : string) :
  fair e → get_fault e = None → dir !! k = Some (Malformed text) →
  Assign e p nic (Some dir) = (Some dir, Err ErrFoundInvalidLease) ∧
  Request e p nic ip (Some dir) = (Some dir, Err ErrFoundInvalidLease).
Proof.
  intros Hfair Hget Hk. unfold Assign, Request.
  by rewrite (Leases_malformed e dir k text Hfair Hget Hk).
Qed.

Lemma invalid_record_blocks_pool_witness :
  Assign (calm 7 7) (mkLeasePool 10 3 100) "aa"
    (Some {[10 := JSON (mkLease "bb" 10 0 0 100); 11 := Malformed "{"]})
  = (Some {[10 := JSON (mkLease "bb" 10 0 0 100); 11 := Malformed "{"]},
     Err ErrFoundInvalidLease) ∧
  Request (calm 7 7) (mkLeasePool 10 3 100) "aa" 12
    (Some {[10 := JSON (mkLease "bb" 10 0 0 100); 11 := Malformed "{"]})
  = (Some {[10 := JSON (mkLease "bb" 10 0 0 100); 11 := Malformed "{"]},
     Err ErrFoundInvalidLease).
Proof.
  apply (invalid_record_blocks_pool (calm 7 7) (mkLeasePool 10 3 100) "aa" 12
           {[10 := JSON (mkLease "bb" 10 0 0 100); 11 := Malformed "{"]} 11 "{").
  - apply fair_calm.
  - reflexivity.
  - vm_compute. reflexivity.
Defined.

(** X2. In the unused-slot step a failure of the write is returned to the
    caller: for a hardware identifier without a lease and a range with a
    free address, [Assign] fails with the error of the store and leaves the
    store as the listing left it. *)
Theorem Assign_reports_failed_write (e : Env) (p : LeasePool) (nic : string)
    (st st1 : Etcd) (leases : gmap Z Lease) (msg : string) (i : Z) :
  fair e → Leases e st = (st1, Ok leases) →
  unbound nic leases →
  0 ≤ i < rangeLen p → leases !! IPAdd (startIP p) i = None →
  set_fault e = Some msg →
  Assign e p nic st = (st1, Err (EtcdFailure msg)).
Proof.
  intros Hfair HL Hu Hi Hfree Hset. unfold Assign. rewrite HL.
  rewrite find_range_unbound by done.
  destruct (find (unseen leases) _) as [ip|] eqn:Hf.
  - unfold Store. by rewrite Hset.
  - apply find_unseen_none in Hf. destruct (Hf i Hi) as [l Hl]. congruence.
Qed.

Lemma Assign_reports_failed_write_witness :
  Assign (store_down 7 7) (mkLeasePool 10 3 100) "aa"
    (Some {[10 := JSON (mkLease "bb" 10 0 0 100)]})
  = (Some {[10 := JSON (mkLease "bb" 10 0 0 100)]},
     Err (EtcdFailure "etcd cluster is unavailable")).
Proof.
  apply (Assign_reports_failed_write (store_down 7 7) (mkLeasePool 10 3 100) "aa"
           (Some {[10 := JSON (mkLease "bb" 10 0 0 100)]})
           (Some {[10 := JSON (mkLease "bb" 10 0 0 100)]})
           {[10 := mkLease "bb" 10 0 0 100]} "etcd cluster is unavailable" 1).
  - split; intros l; reflexivity.
  - vm_compute. reflexivity.
  - intros k l Hk. apply lookup_singleton_Some in Hk as [_ <-]. done.
  - simpl. lia.
  - vm_compute. reflexivity.
  - reflexivity.
Defined.

(** X3. Exhaustion: when the hardware identifier holds no lease, every
    address of the range is taken and no lease has expired, [Assign] fails
    with [ErrLeasePoolIsFull] and writes nothing, whether or not the store
    would accept a write. *)
Theorem Assign_pool_full (e : Env) (p : LeasePool) (nic : string)
    (st st1 : Etcd) (leases : gmap Z Lease) :
  fair e → Leases e st = (st1, Ok leases) →
  unbound nic leases →
  range_taken p leases (rangeLen p) →
  (∀ k l, leases !! k = Some l → clock_now e ≤ ExpireTime l) →
  Assign e p nic st = (st1, Err ErrLeasePoolIsFull).
Proof.
  intros Hfair HL Hu Ht Hlive. unfold Assign. rewrite HL.
  rewrite find_range_unbound, find_unseen_taken by done.
  destruct (find (expired (clock_now e)) _) as [[k l]|] eqn:Hf; [|done].
  apply (find_range_some e) in Hf as [Hk Hx]; [|done].
  apply bool_decide_eq_true in Hx. simpl in Hx.
  specialize (Hlive k l Hk). lia.
Qed.

Lemma Assign_pool_full_witness :
  Assign (calm 50 50) (mkLeasePool 10 2 100) "cc"
    (Some {[10 := JSON (mkLease "aa" 10 0 0 100);
            11 := JSON (mkLease "bb" 11 5 5 105)]})
  = (Some {[10 := JSON (mkLease "aa" 10 0 0 100);
            11 := JSON (mkLease "bb" 11 5 5 105)]}, Err ErrLeasePoolIsFull).
Proof.
  apply (Assign_pool_full (calm 50 50) (mkLeasePool 10 2 100) "cc" _ _
           {[10 := mkLease "aa" 10 0 0 100; 11 := mkLease "bb" 11 5 5 105]}).
  - apply fair_calm.
  - vm_compute. reflexivity.
  - intros k l Hk. apply lookup_insert_Some in Hk as [[_ <-]|[_ Hk]]; [done|].
    apply lookup_singleton_Some in Hk as [_ <-]. done.
  - intros j Hj. simpl in Hj.
    assert (j = 0 ∨ j = 1) as [-> | ->] by lia; vm_compute; eauto.
  - intros k l Hk. apply lookup_insert_Some in Hk as [[_ <-]|[_ Hk]]; [simpl; lia|].
    apply lookup_singleton_Some in Hk as [_ <-]. simpl. lia.
Defined.

(** X4. Reclamation: when the hardware identifier holds no lease and every
    address of the range is taken, but some lease has expired, [Assign]
    succeeds with the address of an expired lease and replaces that lease
    by a fresh one of the new client. *)
Theorem Assign_reclaims_expired (e : Env) (p : LeasePool) (nic : string)
    (st st1 : Etcd) (leases : gmap Z Lease) (k0 : Z) (l0 : Lease) :
  fair e → set_fault e = None → Leases e st = (st1, Ok leases) →
  unbound nic leases →
  range_taken p leases (rangeLen p) →
  leases !! k0 = Some l0 → ExpireTime l0 < clock_now e →
  ∃ k l, leases !! k = Some l ∧ ExpireTime l < clock_now e ∧
         Assign e p nic st
         = (write (Some (fresh (clock_lease e) (expireDuration p) nic (IP l))) st1,
            Ok (IP l)).
Proof.
  intros Hfair Hset HL Hu Ht Hk0 Hx0. unfold Assign. rewrite HL.
  rewrite find_range_unbound, find_unseen_taken by done.
  destruct (find (expired (clock_now e)) _) as [[k l]|] eqn:Hf.
  - apply (find_range_some e) in Hf as [Hk Hx]; [|done].
    apply bool_decide_eq_true in Hx. simpl in Hx.
    exists k, l. split; [done|]. split; [done|].
    by rewrite Store_write.
  - apply (find_range_none e _ _ Hfair Hf) in Hk0.
    apply bool_decide_eq_false in Hk0. done.
Qed.

Lemma Assign_reclaims_expired_witness :
  ∃ k l, ({[10 := mkLease "aa" 10 0 0 100; 11 := mkLease "bb" 11 5 5 305]}
          : gmap Z Lease) !! k = Some l ∧
         ExpireTime l < clock_now (calm 250 251) ∧
         Assign (calm 250 251) (mkLeasePool 10 2 100) "cc"
           (Some {[10 := JSON (mkLease "aa" 10 0 0 100);
                   11 := JSON (mkLease "bb" 11 5 5 305)]})
         = (write (Some (fresh (clock_lease (calm 250 251))
                           (expireDuration (mkLeasePool 10 2 100)) "cc" (IP l)))
              (Some {[10 := JSON (mkLease "aa" 10 0 0 100);
                      11 := JSON (mkLease "bb" 11 5 5 305)]}),
            Ok (IP l)).
Proof.
  apply (Assign_reclaims_expired (calm 250 251) (mkLeasePool 10 2 100) "cc"
           (Some {[10 := JSON (mkLease "aa" 10 0 0 100);
                   11 := JSON (mkLease "bb" 11 5 5 305)]}) _ _
           10 (mkLease "aa" 10 0 0 100)).
  - apply fair_calm.
  - reflexivity.
  - vm_compute. reflexivity.
  - intros k l Hk. apply lookup_insert_Some in Hk as [[_ <-]|[_ Hk]]; [done|].
    apply lookup_singleton_Some in Hk as [_ <-]. done.
  - intros j Hj. simpl in Hj.
    assert (j = 0 ∨ j = 1) as [-> | ->] by lia; vm_compute; eauto.
  - vm_compute. reflexivity.
  - simpl. lia.
Defined.

Lemma Assign_first (e : Env) (p : LeasePool) (m : string) (st0 : Etcd) :
  st0 = None ∨ st0 = Some ∅ → healthy e → 0 < rangeLen p →
  Assign e p m st0
  = (Some {[IPAdd (startIP p) 0
            := JSON (fresh (clock_lease e) (expireDuration p) m (IPAdd (startIP p) 0))]},
     Ok (IPAdd (startIP p) 0)).
Proof.
  intros Hst0 He HR. unfold Assign. rewrite (Leases_empty e st0 He Hst0).
  destruct He as (Hfair & _ & _ & Hset).
  rewrite map_to_list_empty, range_order_nil by done. simpl.
  rewrite (seqZ_cons 0 (rangeLen p)) by done. simpl.
  unfold unseen at 1. rewrite lookup_empty. simpl.
  unfold Store. rewrite Hset. simpl. by rewrite insert_empty.
Qed.

Lemma IPAdd_succ_ne (start i : Z) : IPAdd start (i + 1) ≠ IPAdd start i.
Proof.
  unfold IPAdd. intros Heq.
  pose proof (Z.div_mod (start + (i + 1)) (2 ^ 32) ltac:(lia)) as H1.
  pose proof (Z.div_mod (start + i) (2 ^ 32) ltac:(lia)) as H2.
  rewrite Heq in H1. change (2 ^ 32) with 4294967296 in *. lia.
Qed.

(** X5. From an empty pool with a range of at least two addresses and no
    fault of the store, two different hardware identifiers get two
    different addresses: the first and the second of the range. *)
Theorem distinct_nics_distinct_addresses (e1 e2 : Env) (p : LeasePool)
    (m1 m2 : string) (st0 : Etcd) :
  st0 = None ∨ st0 = Some ∅ →
  healthy e1 → healthy e2 → 2 ≤ rangeLen p → m1 ≠ m2 →
  ∃ st1 st2,
    Assign e1 p m1 st0 = (st1, Ok (IPAdd (startIP p) 0)) ∧
    Assign e2 p m2 st1 = (st2, Ok (IPAdd (startIP p) 1)) ∧
    IPAdd (startIP p) 0 ≠ IPAdd (startIP p) 1 ∧
    (∃ l1, holds st2 (IPAdd (startIP p) 0) l1 ∧ Nic l1 = m1) ∧
    (∃ l2, holds st2 (IPAdd (startIP p) 1) l2 ∧ Nic l2 = m2).
Proof.
  intros Hst0 He1 He2 HR Hm.
  pose proof (IPAdd_succ_ne (startIP p) 0) as Hne. simpl in Hne.
  eexists _, _. split; [apply Assign_first; [done..|lia]|].
  destruct He2 as (Hfair & Hget & _ & Hset).
  unfold Assign, Leases. rewrite Hget.
  rewrite map_to_list_singleton, node_order_singleton by done. simpl.
  rewrite insert_empty, map_to_list_singleton, range_order_singleton by done.
  simpl. unfold has_nic. simpl. rewrite bool_decide_eq_false_2 by done.
  rewrite (seqZ_cons 0 (rangeLen p)) by lia.
  rewrite (seqZ_cons (Z.succ 0) (Z.pred (rangeLen p))) by lia. simpl.
  unfold unseen at 1. rewrite lookup_singleton_eq. simpl.
  unfold unseen at 1. rewrite lookup_singleton_ne by done. simpl.
  unfold Store. rewrite Hset. simpl.
  split; [reflexivity|]. split; [done|]. split.
  - exists (fresh (clock_lease e1) (expireDuration p) m1 (IPAdd (startIP p) 0)).
    split; [|done]. eexists. split; [reflexivity|].
    rewrite lookup_insert_ne by done. by rewrite lookup_singleton_eq.
  - exists (fresh (clock_lease e2) (expireDuration p) m2 (IPAdd (startIP p) 1)).
    split; [|done]. eexists. split; [reflexivity|].
    by rewrite lookup_insert_eq.
Qed.

Lemma distinct_nics_distinct_addresses_witness :
  ∃ st1 st2,
    Assign (calm 5 6) (mkLeasePool 167772170 3 3600) "aa:aa" None
      = (st1, Ok (IPAdd (startIP (mkLeasePool 167772170 3 3600)) 0)) ∧
    Assign (calm 8 9) (mkLeasePool 167772170 3 3600) "bb:bb" st1
      = (st2, Ok (IPAdd (startIP (mkLeasePool 167772170 3 3600)) 1)) ∧
    IPAdd (startIP (mkLeasePool 167772170 3 3600)) 0
      ≠ IPAdd (startIP (mkLeasePool 167772170 3 3600)) 1 ∧
    (∃ l1, holds st2 (IPAdd (startIP (mkLeasePool 167772170 3 3600)) 0) l1
           ∧ Nic l1 = "aa:aa"%string) ∧
    (∃ l2, holds st2 (IPAdd (startIP (mkLeasePool 167772170 3 3600)) 1) l2
           ∧ Nic l2 = "bb:bb"%string).
Proof.
  apply (distinct_nics_distinct_addresses (calm 5 6) (calm 8 9)
           (mkLeasePool 167772170 3 3600) "aa:aa" "bb:bb" None).
  - by left.
  - apply healthy_calm.
  - apply healthy_calm.
  - simpl. lia.
  - discriminate.
Defined.

Lemma Leases_state (e : Env) (st st1 : Etcd) r :
  Leases e st = (st1, r) → st1 = st ∨ (st = None ∧ st1 = Some ∅).
Proof.
  unfold Leases. destruct (get_fault e); [by intros [= <- _]; left|].
  destruct st as [dir|].
  - destruct (collect _ _); intros [= <- _]; by left.
  - destruct (mkdir_fault e); intros [= <- _]; [by left|by right].
Qed.

(** X6. A call that fails writes no lease: after [Assign] or [Request]
    returned an error the store is as before, or the missing subtree was
    created empty by the listing. *)
Theorem failed_call_writes_nothing (e : Env) (p : LeasePool) (nic : string)
    (ip : IPv4) (st st' : Etcd) (err : error) :
  Assign e p nic st = (st', Err err) ∨ Request e p nic ip st = (st', Err err) →
  st' = st ∨ (st = None ∧ st' = Some ∅).
Proof.
  unfold Assign, Request, Store.
  destruct (Leases e st) as [st1 r] eqn:HL. apply Leases_state in HL.
  intros [H|H]; destruct r as [leases|err0].
  - destruct (find (has_nic nic) _) as [[k l]|].
    { destruct (set_fault e); discriminate. }
    destruct (find (unseen leases) _).
    { destruct (set_fault e); [|discriminate]. by injection H as <- _. }
    destruct (find (expired _) _) as [[k l]|].
    { destruct (set_fault e); discriminate. }
    by injection H as <- _.
  - by injection H as <- _.
  - destruct (leases !! ip).
    + repeat case_bool_decide;
        try (destruct (set_fault e); discriminate); by injection H as <- _.
    + destruct (find _ _); [by injection H as <- _|].
      destruct (set_fault e); discriminate.
  - by injection H as <- _.
Qed.

Lemma failed_call_writes_nothing_witness :
  (Some {[10 := JSON (mkLease "aa" 10 0 0 100)]} : Etcd)
    = Some {[10 := JSON (mkLease "aa" 10 0 0 100)]} ∨
  ((Some {[10 := JSON (mkLease "aa" 10 0 0 100)]} : Etcd) = None ∧
   (Some {[10 := JSON (mkLease "aa" 10 0 0 100)]} : Etcd) = Some ∅).
Proof.
  apply (failed_call_writes_nothing (calm 50 50) (mkLeasePool 10 1 100) "bb" 10
           (Some {[10 := JSON (mkLease "aa" 10 0 0 100)]})
           (Some {[10 := JSON (mkLease "aa" 10 0 0 100)]}) ErrLeasePoolIsFull).
  left. vm_compute. reflexivity.
Defined.

(** X7. What [Store] writes, [Leases] reads back: in a store whose records
    sit under their own keys, a successful [Store] of a lease turns the
    listing [leases] into [leases] with that lease under its address. *)
Theorem Store_then_Leases (e e' : Env) (lease : Lease) (st st1 : Etcd)
    (leases : gmap Z Lease) :
  set_fault e = None → fair e' →
  (∀ dir k v, st = Some dir → dir !! k = Some v → ∃ l, v = JSON l ∧ IP l = k) →
  Leases e' st = (st1, Ok leases) →
  (Store e lease st).2 = None ∧
  Leases e' (Store e lease st).1
  = ((Store e lease st).1, Ok (<[IP lease := lease]> leases)).
Proof.
  intros Hset Hfair Hkeyed HL. unfold Store. rewrite Hset. simpl.
  split; [done|].
  assert (Hget : get_fault e' = None).
  { unfold Leases in HL. by destruct (get_fault e'). }
  assert (Hold : ∀ k l, leases !! k = Some l ↔ default ∅ st !! k = Some (JSON l)).
  { destruct st as [dir|]; simpl.
    - destruct (Leases_keyed_dir e' dir Hfair Hget) as (ls & HL' & Hiff).
      { intros k v. by apply Hkeyed. }
      rewrite HL in HL'. by injection HL' as _ <-.
    - unfold Leases in HL. rewrite Hget in HL.
      destruct (mkdir_fault e'); [discriminate|]. injection HL as _ <-.
      intros k l. by rewrite !lookup_empty. }
  destruct (Leases_keyed_dir e' (<[IP lease := Marshal lease]> (default ∅ st))
              Hfair Hget) as (ls & -> & Hiff).
  { intros k v. rewrite lookup_insert. case_decide.
    - intros [= <-]. by exists lease.
    - destruct st as [dir|]; simpl; [by apply Hkeyed|by rewrite lookup_empty]. }
  f_equal. f_equal. apply map_eq. intros k. apply option_eq. intros l.
  rewrite Hiff, !lookup_insert. case_decide.
  - unfold Marshal. split; intros [= ->]; done.
  - by rewrite Hold.
Qed.

Lemma Store_then_Leases_witness :
  (Store (calm 0 0) (mkLease "bb" 11 5 5 105)
     (Some {[10 := JSON (mkLease "aa" 10 0 0 100)]})).2 = None ∧
  Leases (calm 9 9)
    (Store (calm 0 0) (mkLease "bb" 11 5 5 105)
       (Some {[10 := JSON (mkLease "aa" 10 0 0 100)]})).1
  = ((Store (calm 0 0) (mkLease "bb" 11 5 5 105)
        (Some {[10 := JSON (mkLease "aa" 10 0 0 100)]})).1,
     Ok (<[IP (mkLease "bb" 11 5 5 105) := mkLease "bb" 11 5 5 105]>
           {[10 := mkLease "aa" 10 0 0 100]})).
Proof.
  apply (Store_then_Leases (calm 0 0) (calm 9 9) (mkLease "bb" 11 5 5 105)
           (Some {[10 := JSON (mkLease "aa" 10 0 0 100)]})
           (Some {[10 := JSON (mkLease "aa" 10 0 0 100)]})).
  - reflexivity.
  - apply fair_calm.
  - intros dir k v [= <-] Hk. apply lookup_singleton_Some in Hk as [<- <-].
    by eexists.
  - vm_compute. reflexivity.
Defined.

(** X8. [Reset] wipes the pool: when [Delete] does not fail, [Reset] returns
    no error whether or not the subtree existed, the next listing is empty
    and the next [Assign] hands out the first address of the range again. *)
Theorem Reset_wipes_pool (e : Env) (p : LeasePool) (nic : string) (st : Etcd) :
  healthy e → 0 < rangeLen p →
  Reset None st = (None, None) ∧
  Leases e (Reset None st).1 = (Some ∅, Ok ∅) ∧
  (Assign e p nic (Reset None st).1).2 = Ok (IPAdd (startIP p) 0).
Proof.
  intros He HR.
  assert (HRs : Reset None st = (None, None)) by (by destruct st).
  rewrite HRs. simpl. split; [done|]. split.
  - apply Leases_empty; [done|by left].
  - by rewrite Assign_first; [|by left|done|done].
Qed.

Lemma Reset_wipes_pool_witness :
  Reset None (Some {[10 := JSON (mkLease "aa" 10 0 0 100)]}) = (None, None) ∧
  Leases (calm 5 5)
    (Reset None (Some {[10 := JSON (mkLease "aa" 10 0 0 100)]})).1
  = (Some ∅, Ok ∅) ∧
  (Assign (calm 5 5) (mkLeasePool 10 3 100) "bb"
     (Reset None (Some {[10 := JSON (mkLease "aa" 10 0 0 100)]})).1).2
  = Ok (IPAdd (startIP (mkLeasePool 10 3 100)) 0).
Proof.
  apply (Reset_wipes_pool (calm 5 5) (mkLeasePool 10 3 100) "bb"
           (Some {[10 := JSON (mkLease "aa" 10 0 0 100)]})).
  - apply healthy_calm.
  - simpl. lia.
Defined.

(** X9. The address [Assign] returns is an address of the configured range
    or the address of a lease already in the listing; it never invents
    another one. *)
Theorem Assign_address_origin (e : Env) (p : LeasePool) (nic : string)
    (st st1 st2 : Etcd) (leases : gmap Z Lease) (ip : IPv4) :
  fair e → Leases e st = (st1, Ok leases) →
  Assign e p nic st = (st2, Ok ip) →
  (∃ i, 0 ≤ i < rangeLen p ∧ ip = IPAdd (startIP p) i ∧ leases !! ip = None) ∨
  (∃ l, leases !! ip = Some l ∧
        (Nic l = nic ∨ ExpireTime l < clock_now e)).
Proof.
  intros Hfair HL. unfold Assign, Store. rewrite HL.
  destruct (find (has_nic nic) _) as [[k l]|] eqn:Hs.
  { apply (find_range_some e) in Hs as [Hk Hn]; [|done].
    apply bool_decide_eq_true in Hn. simpl in Hn.
    rewrite <- (Leases_keyed _ _ _ _ HL _ _ Hk) in Hk.
    destruct (set_fault e); intros [= _ <-]; right; eauto. }
  destruct (find (unseen leases) _) as [ip'|] eqn:Hu.
  { apply find_unseen_some in Hu as (i & Hi & -> & Hnone & _).
    destruct (set_fault e); [discriminate|]. intros [= _ <-]. left. eauto. }
  destruct (find (expired (clock_now e)) _) as [[k l]|] eqn:Hx; [|discriminate].
  apply (find_range_some e) in Hx as [Hk Hexp]; [|done].
  apply bool_decide_eq_true in Hexp. simpl in Hexp.
  rewrite <- (Leases_keyed _ _ _ _ HL _ _ Hk) in Hk.
  destruct (set_fault e); intros [= _ <-]; right; eauto.
Qed.

Lemma Assign_address_origin_witness :
  (∃ i, 0 ≤ i < rangeLen (mkLeasePool 10 3 100) ∧
        11 = IPAdd (startIP (mkLeasePool 10 3 100)) i ∧
        ({[10 := mkLease "aa" 10 0 0 100]} : gmap Z Lease) !! 11 = None) ∨
  (∃ l, ({[10 := mkLease "aa" 10 0 0 100]} : gmap Z Lease) !! 11 = Some l ∧
        (Nic l = "bb"%string ∨ ExpireTime l < clock_now (calm 50 50))).
Proof.
  apply (Assign_address_origin (calm 50 50) (mkLeasePool 10 3 100) "bb"
           (Some {[10 := JSON (mkLease "aa" 10 0 0 100)]})
           (Some {[10 := JSON (mkLease "aa" 10 0 0 100)]})
           (Some {[10 := JSON (mkLease "aa" 10 0 0 100);
                   11 := JSON (mkLease "bb" 11 50 50 150)]})
           {[10 := mkLease "aa" 10 0 0 100]} 11).
  - apply fair_calm.
  - vm_compute. reflexivity.
  - vm_compute. reflexivity.
Defined.

(** X21. The outcome of [Request] does not depend on the order in which
    Go's [range] visits the leases: two environments that differ only in
    that order give the same result and the same store. *)
Theorem Request_ignores_map_order (e1 e2 : Env) (p : LeasePool) (nic : string)
    (ip : IPv4) (st : Etcd) :
  fair e1 → fair e2 →
  clock_now e1 = clock_now e2 → clock_lease e1 = clock_lease e2 →
  get_fault e1 = get_fault e2 → mkdir_fault e1 = mkdir_fault e2 →
  set_fault e1 = set_fault e2 → node_order e1 = node_order e2 →
  Request e1 p nic ip st = Request e2 p nic ip st.
Proof.
  intros Hf1 Hf2 Hnow Hlease Hget Hmk Hset Hnode.
  unfold Request, Store, Leases. rewrite Hnow, Hlease, Hget, Hmk, Hset, Hnode.
  destruct (get_fault e2); [done|].
  assert (Hfind : ∀ leases : gmap Z Lease,
            match find (active_for nic (clock_now e2))
                    (range_order e1 (map_to_list leases)) with
            | Some _ => true | None => false end
            = match find (active_for nic (clock_now e2))
                      (range_order e2 (map_to_list leases)) with
              | Some _ => true | None => false end).
  { intros leases.
    destruct (find _ (range_order e1 _)) as [[k1 l1]|] eqn:H1;
      destruct (find _ (range_order e2 _)) as [[k2 l2]|] eqn:H2; try done.
    - apply (find_range_some e1) in H1 as [Hk Ha]; [|done].
      apply (find_range_none e2 _ _ Hf2 H2) in Hk. congruence.
    - apply (find_range_some e2) in H2 as [Hk Ha]; [|done].
      apply (find_range_none e1 _ _ Hf1 H1) in Hk. congruence. }
  assert (Hbody : ∀ (st1 : Etcd) (leases : gmap Z Lease),
            match find (active_for nic (clock_now e2))
                    (range_order e1 (map_to_list leases)) with
            | Some _ => (st1, Err ErrRefreshNoMatch)
            | None =>
                let '(st2, _) :=
                  match set_fault e2 with
                  | Some msg => (st1, Some (EtcdFailure msg))
                  | None =>
                      (Some (<[IP (newLease (clock_lease e2) nic ip
                                     (expireDuration p) None)
                               := Marshal (newLease (clock_lease e2) nic ip
                                             (expireDuration p) None)]>
                               (default ∅ st1)), None)
                  end in (st2, Ok ip)
            end
            = match find (active_for nic (clock_now e2))
                      (range_order e2 (map_to_list leases)) with
              | Some _ => (st1, Err ErrRefreshNoMatch)
              | None =>
                  let '(st2, _) :=
                    match set_fault e2 with
                    | Some msg => (st1, Some (EtcdFailure msg))
                    | None =>
                        (Some (<[IP (newLease (clock_lease e2) nic ip
                                       (expireDuration p) None)
                                 := Marshal (newLease (clock_lease e2) nic ip
                                               (expireDuration p) None)]>
                                 (default ∅ st1)), None)
                    end in (st2, Ok ip)
              end).
  { intros st1 leases. specialize (Hfind leases).
    destruct (find _ (range_order e1 _)); destruct (find _ (range_order e2 _));
      done. }
  destruct st as [dir|].
  - destruct (collect _ _) as [leases|]; [|done].
    destruct (leases !! ip); [done|]. apply Hbody.
  - destruct (mkdir_fault e2); [done|].
    destruct ((∅ : gmap Z Lease) !! ip); [done|]. apply Hbody.
Qed.

Lemma Request_ignores_map_order_witness :
  Request (calm 50 51) (mkLeasePool 10 3 100) "aa" 12
    (Some {[10 := JSON (mkLease "aa" 10 0 0 100);
            11 := JSON (mkLease "bb" 11 5 5 105)]})
  = Request (mkEnv 50 51 None None None (λ l, l) (λ l, reverse l))
      (mkLeasePool 10 3 100) "aa" 12
      (Some {[10 := JSON (mkLease "aa" 10 0 0 100);
              11 := JSON (mkLease "bb" 11 5 5 105)]}).
Proof.
  apply (Request_ignores_map_order (calm 50 51)
           (mkEnv 50 51 None None None (λ l, l) (λ l, reverse l))).
  - apply fair_calm.
  - split; intros l; simpl; [apply reverse_Permutation|reflexivity].
  - reflexivity.
  - reflexivity.
  - reflexivity.
  - reflexivity.
  - reflexivity.
  - reflexivity.
Defined.

End DhcpFacts.

(** * Facts about the TFTP server *)

Section TftpFacts.
Import Tftp.

Lemma IndexByte_none (b : bytes) c : c ∉ b → IndexByte b c = None.
Proof.
  induction b as [|x b IH]; [done|]. intros Hc.
  apply not_elem_of_cons in Hc as [Hx Hb]. simpl.
  rewrite decide_False by done. by rewrite IH.
Qed.

Lemma IndexByte_first (s rest : bytes) c :
  c ∉ s → IndexByte (s ++ c :: rest) c = Some (length s).
Proof.
  induction s as [|x s IH]; simpl.
  - intros _. by rewrite decide_True.
  - intros Hc. apply not_elem_of_cons in Hc as [Hx Hs].
    rewrite decide_False by done. by rewrite IH.
Qed.

Lemma IndexByte_some (b : bytes) c off :
  IndexByte b c = Some off →
(c ∉ take off b) ∧ b = take off b ++ c :: drop (off + 1) b.
Proof.
  revert off. induction b as [|x b IH]; intros off; simpl; [discriminate|].
  case_decide as Hx.
  - intros [= <-]. simpl. subst x. split; [apply not_elem_of_nil|done].
  - destruct (IndexByte b c) as [n|] eqn:Hn; [|discriminate].
    intros [= <-]. destruct (IH n eq_refl) as [Hfree Hb]. simpl. split.
    + apply not_elem_of_cons. split; [by intros ->|done].
    + by rewrite <- Hb.
Qed.

Lemma nullStr_terminated (s rest : bytes) :
  nul_free s → nullStr (s ++ NUL :: rest) = (s, rest, true).
Proof.
  intros Hs. unfold nullStr. rewrite IndexByte_first by done.
  rewrite take_app_length.
  replace (s ++ NUL :: rest) with ((s ++ [NUL]) ++ rest)
    by (by rewrite <- app_assoc).
  rewrite drop_app_length'; [done|]. rewrite length_app. simpl. lia.
Qed.

Lemma nullStr_field (s rest : bytes) :
  nul_free s → nullStr (field s ++ rest) = (s, rest, true).
Proof.
  intros Hs. unfold field. rewrite <- app_assoc. by apply nullStr_terminated.
Qed.

Lemma nullStr_unterminated (b : bytes) :
  nul_free b → nullStr b = ([], [], false).
Proof. intros Hb. unfold nullStr. by rewrite IndexByte_none. Qed.

Lemma nullStr_ok (b s rest : bytes) :
  nullStr b = (s, rest, true) → nul_free s ∧ b = s ++ NUL :: rest.
Proof.
  unfold nullStr. destruct (IndexByte b NUL) as [off|] eqn:Hoff; [|discriminate].
  intros [= <- <-]. by apply IndexByte_some.
Qed.

Lemma nullStr_not_ok (b s rest : bytes) :
  nullStr b = (s, rest, false) → nul_free b.
Proof.
  unfold nullStr. destruct (IndexByte b NUL) as [off|] eqn:Hoff; [discriminate|].
  intros _ Hin. induction b as [|x b IH]; [by apply elem_of_nil in Hin|].
  simpl in Hoff. case_decide; [discriminate|].
  destruct (IndexByte b NUL); [discriminate|].
  apply elem_of_cons in Hin as [Hx|Hin]; [done|by apply IH].
Qed.

Lemma nullStr_shorter (b s rest : bytes) :
  nullStr b = (s, rest, true) → (length rest < length b)%nat.
Proof.
  intros H. apply nullStr_ok in H as [_ ->]. rewrite length_app. simpl. lia.
Qed.

(** The fuel [parseRRQ] gives to the loop over the options suffices. *)
Lemma parseOptions_finishes (fuel : nat) (b : bytes) (req : rrq) :
  (length b ≤ fuel)%nat → parseOptions fuel b req ≠ Unfinished.
Proof.
  revert b req. induction fuel as [|fuel IH]; intros b req Hlen.
  - destruct b; simpl in *; [done|lia].
  - destruct b as [|c b]; [done|].
    cbn [parseOptions].
    destruct (nullStr (c :: b)) as [[opt b1] ok] eqn:H1.
    destruct ok; simpl; [|done].
    destruct (nullStr b1) as [[valStr b2] ok] eqn:H2.
    destruct ok; simpl; [|done].
    apply nullStr_shorter in H1, H2. simpl in *.
    destruct (Atoi valStr) as [val|]; [|done].
    case_decide.
    + destruct ((val <? 8) || (65464 <? val)); [done|]. apply IH. lia.
    + apply IH. lia.
Qed.

Lemma parseRRQ_finishes (b : bytes) : parseRRQ b ≠ Unfinished.
Proof.
  unfold parseRRQ. destruct (length b <? 6)%nat; [done|].
  destruct (negb _); [done|].
  destruct (nullStr (drop 2 b)) as [[fname b1] ok]. destruct ok; simpl; [|done].
  destruct (nullStr b1) as [[mode b2] ok]. destruct ok; simpl; [|done].
  destruct (negb _); [done|]. by apply parseOptions_finishes.
Qed.

(** C6 (as stated, refuted). A read request whose filename is empty (the
    terminating NUL follows the opcode at once) is accepted. *)
Lemma parseRRQ_accepts_empty_filename :
  parseRRQ (PutUint16 1 ++ field [] ++ field (str "octet"))
    = Accept {| Filename := []; BlockSize := 0 |} ∧
  serve (λ _, []) (PutUint16 1 ++ field [] ++ field (str "octet"))
    = Started {| Filename := []; BlockSize := 0 |}.
Proof. split; vm_compute; reflexivity. Qed.

(** C6 (as amended). A datagram in which no NUL byte follows the opcode --
    the filename is not terminated -- is rejected: by [parseRRQ] with an
    error, the one about the missing filename when the datagram has six
    bytes and the opcode of a read request, and by the listener with an
    ERROR packet and no transfer. *)
Theorem parseRRQ_rejects_unterminated_filename (text : parse_error → bytes)
    (b : bytes) :
  nul_free (drop 2 b) →
  (∃ err, parseRRQ b = Reject err) ∧
  ((6 ≤ length b)%nat → Uint16 (take 2 b) = 1 → parseRRQ b = Reject NoFilename) ∧
  (∃ err, serve text b = Replied (mkError (text err))).
Proof.
  intros Hfree.
  assert (Hrej : ∀ b : bytes, nul_free (drop 2 b) →
            (∃ err, parseRRQ b = Reject err) ∧
            ((6 ≤ length b)%nat → Uint16 (take 2 b) = 1 →
             parseRRQ b = Reject NoFilename)).
  { clear b Hfree. intros b Hfree. unfold parseRRQ.
    rewrite nullStr_unterminated by done. simpl.
    destruct (length b <? 6)%nat eqn:Hlen.
    - split; [by eexists|]. apply Nat.ltb_lt in Hlen. lia.
    - destruct (Uint16 (take 2 b) =? 1) eqn:Hop; simpl.
      + split; [by eexists|done].
      + split; [by eexists|]. apply Z.eqb_neq in Hop. done. }
  split; [by apply Hrej|]. split; [by apply Hrej|].
  unfold serve. destruct (Hrej (take 512 b)) as [[err ->] _]; [|by exists err].
  intros Hin. apply Hfree.
  replace 512%nat with (2 + 510)%nat in Hin by done.
  rewrite <- take_drop_commute in Hin.
  by apply (subseteq_take 510).
Qed.

Lemma parseRRQ_rejects_unterminated_filename_witness :
  (∃ err, parseRRQ (PutUint16 1 ++ str "pxelinux.0") = Reject err) ∧
  ((6 ≤ length (PutUint16 1 ++ str "pxelinux.0"))%nat →
   Uint16 (take 2 (PutUint16 1 ++ str "pxelinux.0")) = 1 →
   parseRRQ (PutUint16 1 ++ str "pxelinux.0") = Reject NoFilename) ∧
  (∃ err : parse_error,
     serve (λ _, str "bad request") (PutUint16 1 ++ str "pxelinux.0")
     = Replied (mkError (str "bad request"))).
Proof.
  destruct (parseRRQ_rejects_unterminated_filename (λ _, str "bad request")
              (PutUint16 1 ++ str "pxelinux.0")) as (H1 & H2 & [err H3]).
  - vm_compute. intros Hin. repeat (apply elem_of_cons in Hin as [Hin|Hin];
                                     [discriminate|]).
    by apply elem_of_nil in Hin.
  - split; [exact H1|]. split; [exact H2|]. by exists err.
Defined.

Lemma fill_short (recv d : bytes) :
  length recv = 256%nat → (length d < 4)%nat →
  ∃ recv', length recv' = 256%nat ∧ fill recv d = (length d, recv').
Proof.
  intros Hr Hd. unfold fill. rewrite Hr, Nat.min_l by lia.
  eexists. split; [|reflexivity].
  rewrite length_app, length_take, length_drop. lia.
Qed.

Lemma fill_long (recv tl : bytes) a b c e :
  length recv = 256%nat →
  ∃ n recv', length (a :: b :: c :: e :: recv') = 256%nat ∧
     fill recv (a :: b :: c :: e :: tl)
     = (S (S (S (S n))), a :: b :: c :: e :: recv') ∧
     ∀ msg rest, tl = msg ++ NUL :: rest → (length msg < 252)%nat →
       ∃ rest', recv' = msg ++ NUL :: rest'.
Proof.
  intros Hr. unfold fill. rewrite Hr. simpl length.
  exists (Nat.min (length tl) 252), (take (Nat.min (length tl) 252) tl
                                      ++ drop (4 + Nat.min (length tl) 252) recv).
  split; [|split; [reflexivity|]].
  - simpl. rewrite length_app, length_take, length_drop. lia.
  - intros msg rest -> Hm. rewrite length_app. simpl.
    rewrite take_app_ge by lia.
    replace (Nat.min (length msg + S (length rest)) 252 - length msg)%nat
      with (S (Nat.min (length rest) (251 - length msg))) by lia.
    simpl. rewrite <- app_assoc. simpl. eauto.
Qed.

Lemma await_passed_over seq (recv d : bytes) rest :
  length recv = 256%nat → passed_over seq d = true →
  ∃ recv', length recv' = 256%nat ∧
           await seq recv (Datagram d :: rest) = await seq recv' rest.
Proof.
  intros Hr Hp. cbn [await].
  destruct (decide (length d < 4)%nat) as [Hd|Hd].
  - destruct (fill_short recv d Hr Hd) as (recv' & Hr' & ->).
    exists recv'. split; [done|].
    by rewrite (proj2 (Nat.ltb_lt _ _) Hd).
  - destruct d as [|a [|b [|c [|e tl]]]]; simpl in Hd; try lia.
    destruct (fill_long recv tl a b c e Hr) as (n & recv' & Hr' & -> & _).
    exists (a :: b :: c :: e :: recv'). split; [done|].
    unfold passed_over in Hp. simpl in Hp. cbn [Nat.ltb Nat.leb].
    simpl.
    destruct (byte_val a * 256 + byte_val b =? 4);
      destruct (byte_val a * 256 + byte_val b =? 5);
      destruct (byte_val c * 256 + byte_val e =? seq);
      simpl in Hp; try done.
Qed.

Lemma await_passes_over seq (ds : list bytes) (recv : bytes) rest :
  Forall (λ d, passed_over seq d = true) ds →
  length recv = 256%nat →
  ∃ recv', length recv' = 256%nat ∧
           await seq recv ((Datagram <$> ds) ++ rest) = await seq recv' rest.
Proof.
  intros Hds. revert recv. induction Hds as [|d ds Hd Hds IH]; intros recv Hr.
  - by exists recv.
  - destruct (await_passed_over seq recv d ((Datagram <$> ds) ++ rest) Hr Hd)
      as (recv1 & Hr1 & H1).
    destruct (IH recv1 Hr1) as (recv2 & Hr2 & H2).
    exists recv2. split; [done|].
    change ((Datagram <$> d :: ds) ++ rest)
      with (Datagram d :: (Datagram <$> ds) ++ rest).
    by rewrite H1.
Qed.

Lemma await_ack seq (recv d : bytes) rest :
  length recv = 256%nat → acks seq d = true →
  await seq recv (Datagram d :: rest) = (Acked, rest).
Proof.
  intros Hr Ha. unfold acks in Ha.
  apply andb_true_iff in Ha as [Ha Hseq]. apply andb_true_iff in Ha as [Hlen Hop].
  apply Nat.leb_le in Hlen.
  destruct d as [|a [|b [|c [|e tl]]]]; simpl in Hlen; try lia.
  cbn [await].
  destruct (fill_long recv tl a b c e Hr) as (n & recv' & Hr' & -> & _).
  simpl in *. by rewrite Hop, Hseq.
Qed.

Lemma await_error seq (recv : bytes) code msg rest :
  length recv = 256%nat → nul_free msg → (length msg < 252)%nat →
  await seq recv (Datagram (mkERROR code msg) :: rest)
  = (Stop (ClientAborted msg), rest).
Proof.
  intros Hr Hfree Hlen. cbn [await]. unfold mkERROR, PutUint16, field. simpl app.
  destruct (fill_long recv (msg ++ [NUL]) (byte_of (5 / 256)) (byte_of 5)
              (byte_of (code / 256)) (byte_of code) Hr)
    as (n & recv' & Hr' & -> & Hmsg).
  destruct (Hmsg msg [] eq_refl Hlen) as [rest' ->].
  simpl. by rewrite drop_0, nullStr_terminated.
Qed.

Lemma fill_full (recv tl : bytes) a b c e :
  length recv = 256%nat → (252 ≤ length tl)%nat →
  fill recv (a :: b :: c :: e :: tl) = (256%nat, a :: b :: c :: e :: take 252 tl).
Proof.
  intros Hr Htl. unfold fill. rewrite Hr. cbn [length].
  rewrite Nat.min_r by lia. rewrite (drop_ge recv) by lia.
  rewrite app_nil_r. reflexivity.
Qed.

Lemma await_errs seq (recv d : bytes) rest :
  length recv = 256%nat → errs d = true →
  ∃ m, await seq recv (Datagram d :: rest) = (Stop (ClientAborted m), rest).
Proof.
  intros Hr He. unfold errs in He. apply andb_true_iff in He as [Hlen Hop].
  apply Nat.leb_le in Hlen.
  destruct d as [|a [|b [|c [|e tl]]]]; simpl in Hlen; try lia.
  cbn [await].
  destruct (fill_long recv tl a b c e Hr) as (n & recv' & Hr' & -> & _).
  simpl in *. apply Z.eqb_eq in Hop. rewrite Hop. simpl.
  destruct (nullStr (drop 0 recv')) as [[m r] ok]. by exists m.
Qed.

(** A message of 252 bytes or more fills the receive buffer and leaves no
    room for its terminator. *)
Lemma await_error_long seq (recv : bytes) code msg rest :
  length recv = 256%nat → nul_free msg → (252 ≤ length msg)%nat →
  await seq recv (Datagram (mkERROR code msg) :: rest)
  = (Stop (ClientAborted []), rest).
Proof.
  intros Hr Hfree Hlen. cbn [await]. unfold mkERROR, PutUint16, field. simpl app.
  rewrite fill_full by (done || (rewrite length_app; lia)).
  rewrite take_app_le by lia.
  simpl. rewrite drop_0, nullStr_unterminated; [done|].
  intros Hin. apply Hfree. by apply (subseteq_take 252).
Qed.

Lemma silence_cons (ds : list bytes) (rounds : list (list bytes)) rest :
  silence (ds :: rounds) ++ rest
  = (Datagram <$> ds) ++ Timeout :: silence rounds ++ rest.
Proof. unfold silence. simpl. by rewrite <- !app_assoc. Qed.

Lemma attempts_silence (b : bytes) seq (rounds : list (list bytes)) rest :
  Forall (Forall (λ d, passed_over seq d = true)) rounds →
  ∀ tries, (length rounds ≤ tries)%nat →
  attempts tries b seq (silence rounds ++ rest)
  = let '(v, ws, r) := attempts (tries - length rounds) b seq rest in
    (v, replicate (length rounds) b ++ ws, r).
Proof.
  intros Hrounds. induction Hrounds as [|ds rounds Hds Hrounds IH]; intros tries Ht.
  - simpl. rewrite Nat.sub_0_r. by destruct (attempts tries b seq rest) as [[v ws] r].
  - destruct tries as [|tries]; simpl in Ht; [lia|].
    rewrite silence_cons. cbn [attempts].
    destruct (await_passes_over seq ds (replicate 256 NUL)
                (Timeout :: silence rounds ++ rest) Hds) as (recv' & Hr' & ->).
    { by rewrite length_replicate. }
    cbn [await]. rewrite IH by lia. simpl.
    by destruct (attempts (tries - length rounds) b seq rest) as [[v ws] r].
Qed.

Lemma attempts_decided (b : bytes) seq (ds : list bytes) reads v rest tries :
  Forall (λ d, passed_over seq d = true) ds →
  (∀ recv, length recv = 256%nat → await seq recv reads = (v, rest)) →
  v ≠ Retry →
  attempts (S tries) b seq ((Datagram <$> ds) ++ reads) = (v, [b], rest).
Proof.
  intros Hds Hv Hne. cbn [attempts].
  destruct (await_passes_over seq ds (replicate 256 NUL) reads Hds)
    as (recv' & Hr' & ->).
  { by rewrite length_replicate. }
  rewrite (Hv recv' Hr'). by destruct v.
Qed.

(** C7 (as stated, refuted). An ERROR packet whose message has 252 bytes
    does not fit the 256-byte receive buffer together with its terminator:
    [sendPacket] aborts, but with an empty message instead of the client's. *)
Lemma sendPacket_loses_long_error_message :
  nul_free (replicate 252 "a"%char) ∧
  sendPacket (mkDATA 1 (str "boot")) 1
    [Datagram (mkERROR 0 (replicate 252 "a"%char))]
  = (Stop (ClientAborted []), [mkDATA 1 (str "boot")], []) ∧
  ([] : bytes) ≠ replicate 252 "a"%char.
Proof.
  split; [|split].
  - apply (bool_decide_unpack _). by vm_compute.
  - vm_compute. reflexivity.
  - discriminate.
Qed.

(** C7 (as amended). While [sendPacket] waits for the ACK of [seq], with
    fewer than five attempts timed out (whatever datagrams it passed over):
    a matching ACK makes it succeed; an ERROR packet makes it fail at once
    with the client-aborted error, without writing the packet again, and
    the error carries the client's null-terminated message when that
    message has fewer than 252 bytes, and an empty message when it has 252
    bytes or more; five attempts timed out make it fail with the timeout
    error for [seq] after five writes. *)
Theorem sendPacket_stop_and_wait (b : bytes) (seq : Z)
    (rounds : list (list bytes)) (ds : list bytes) (rest : list read) :
  Forall (Forall (λ d, passed_over seq d = true)) rounds →
  Forall (λ d, passed_over seq d = true) ds →
  (∀ ack, (length rounds < 5)%nat → acks seq ack = true →
     sendPacket b seq (silence rounds ++ (Datagram <$> ds) ++ Datagram ack :: rest)
     = (Acked, replicate (length rounds + 1) b, rest)) ∧
  (length rounds = 5%nat →
     sendPacket b seq (silence rounds ++ rest)
     = (Stop (TimedOut seq), replicate 5 b, rest)) ∧
  (∀ d, (length rounds < 5)%nat → errs d = true →
     ∃ m, sendPacket b seq
            (silence rounds ++ (Datagram <$> ds) ++ Datagram d :: rest)
          = (Stop (ClientAborted m), replicate (length rounds + 1) b, rest)) ∧
  (∀ code msg, (length rounds < 5)%nat → nul_free msg → (length msg < 252)%nat →
     sendPacket b seq
       (silence rounds ++ (Datagram <$> ds) ++ Datagram (mkERROR code msg) :: rest)
     = (Stop (ClientAborted msg), replicate (length rounds + 1) b, rest)) ∧
  (∀ code msg, (length rounds < 5)%nat → nul_free msg → (252 ≤ length msg)%nat →
     sendPacket b seq
       (silence rounds ++ (Datagram <$> ds) ++ Datagram (mkERROR code msg) :: rest)
     = (Stop (ClientAborted []), replicate (length rounds + 1) b, rest)).
Proof.
  intros Hrounds Hds. unfold sendPacket, numRetries.
  split; [|split; [|split; [|split]]].
  - intros ack Hlen Hack. rewrite attempts_silence by (done || lia).
    destruct (5 - length rounds)%nat as [|tries] eqn:Ht; [lia|].
    rewrite (attempts_decided b seq ds _ Acked rest); [|done| |done].
    + by rewrite replicate_add.
    + intros recv Hr. by apply await_ack.
  - intros Hlen. rewrite attempts_silence by (done || lia).
    rewrite Hlen. reflexivity.
  - intros d Hlen Herr. rewrite attempts_silence by (done || lia).
    destruct (5 - length rounds)%nat as [|tries] eqn:Ht; [lia|].
    cbn [attempts].
    destruct (await_passes_over seq ds (replicate 256 NUL) (Datagram d :: rest) Hds)
      as (recv' & Hr' & ->); [by rewrite length_replicate|].
    destruct (await_errs seq recv' d rest Hr' Herr) as [m ->].
    exists m. by rewrite replicate_add.
  - intros code msg Hlen Hfree Hmsg. rewrite attempts_silence by (done || lia).
    destruct (5 - length rounds)%nat as [|tries] eqn:Ht; [lia|].
    rewrite (attempts_decided b seq ds _ (Stop (ClientAborted msg)) rest);
      [|done| |done].
    + by rewrite replicate_add.
    + intros recv Hr. by apply await_error.
  - intros code msg Hlen Hfree Hmsg. rewrite attempts_silence by (done || lia).
    destruct (5 - length rounds)%nat as [|tries] eqn:Ht; [lia|].
    rewrite (attempts_decided b seq ds _ (Stop (ClientAborted [])) rest);
      [|done| |done].
    + by rewrite replicate_add.
    + intros recv Hr. by apply await_error_long.
Qed.

Lemma sendPacket_stop_and_wait_witness :
  (∀ ack, (length [[mkACK 6]; []] < 5)%nat → acks 7 ack = true →
     sendPacket (mkDATA 7 (str "boot")) 7
       (silence [[mkACK 6]; []] ++ (Datagram <$> [str "x"]) ++ Datagram ack :: [])
     = (Acked, replicate (length [[mkACK 6]; []] + 1) (mkDATA 7 (str "boot")), [])) ∧
  (length [[mkACK 6]; []] = 5%nat →
     sendPacket (mkDATA 7 (str "boot")) 7 (silence [[mkACK 6]; []] ++ [])
     = (Stop (TimedOut 7), replicate 5 (mkDATA 7 (str "boot")), [])) ∧
  (∀ d, (length [[mkACK 6]; []] < 5)%nat → errs d = true →
     ∃ m, sendPacket (mkDATA 7 (str "boot")) 7
            (silence [[mkACK 6]; []] ++ (Datagram <$> [str "x"])
             ++ Datagram d :: [])
          = (Stop (ClientAborted m),
             replicate (length [[mkACK 6]; []] + 1) (mkDATA 7 (str "boot")), [])) ∧
  (∀ code msg, (length [[mkACK 6]; []] < 5)%nat → nul_free msg →
     (length msg < 252)%nat →
     sendPacket (mkDATA 7 (str "boot")) 7
       (silence [[mkACK 6]; []] ++ (Datagram <$> [str "x"])
        ++ Datagram (mkERROR code msg) :: [])
     = (Stop (ClientAborted msg),
        replicate (length [[mkACK 6]; []] + 1) (mkDATA 7 (str "boot")), [])) ∧
  (∀ code msg, (length [[mkACK 6]; []] < 5)%nat → nul_free msg →
     (252 ≤ length msg)%nat →
     sendPacket (mkDATA 7 (str "boot")) 7
       (silence [[mkACK 6]; []] ++ (Datagram <$> [str "x"])
        ++ Datagram (mkERROR code msg) :: [])
     = (Stop (ClientAborted []),
        replicate (length [[mkACK 6]; []] + 1) (mkDATA 7 (str "boot")), [])).
Proof.
  apply (sendPacket_stop_and_wait (mkDATA 7 (str "boot")) 7
           [[mkACK 6]; []] [str "x"] []).
  - repeat constructor.
  - repeat constructor.
Defined.

Lemma byte_val_of (n : Z) : byte_val (byte_of n) = n mod 256.
Proof.
  unfold byte_val, byte_of. rewrite N_ascii_embedding.
  - rewrite Z2N.id; [done|]. apply Z.mod_pos_bound. lia.
  - assert (0 ≤ n mod 256 < 256) by (apply Z.mod_pos_bound; lia). lia.
Qed.

Lemma Uint16_PutUint16 (v : Z) : 0 ≤ v < 65536 → Uint16 (PutUint16 v) = v.
Proof.
  intros Hv. unfold Uint16, PutUint16. rewrite !byte_val_of.
  rewrite (Z.mod_small (v / 256)).
  - pose proof (Z.div_mod v 256). lia.
  - split; [apply Z.div_pos; lia|apply Z.div_lt_upper_bound; lia].
Qed.

Lemma acks_mkACK (seq : Z) : 0 ≤ seq < 65536 → acks seq (mkACK seq) = true.
Proof.
  intros Hseq. unfold acks, mkACK.
  change (take 2 (PutUint16 4 ++ PutUint16 seq)) with (PutUint16 4).
  change (take 2 (drop 2 (PutUint16 4 ++ PutUint16 seq))) with (PutUint16 seq).
  rewrite !Uint16_PutUint16 by lia. simpl. by rewrite Z.eqb_refl.
Qed.

Lemma sendPacket_prompt (b : bytes) (seq : Z) rest :
  0 ≤ seq < 65536 →
  sendPacket b seq (Datagram (mkACK seq) :: rest) = (Acked, [b], rest).
Proof.
  intros Hseq. unfold sendPacket, numRetries.
  apply (attempts_decided b seq [] _ Acked rest); [done| |done].
  intros recv Hr. apply await_ack; [done|]. by apply acks_mkACK.
Qed.

Lemma seq_next (seq : Z) : 0 ≤ (seq + 1) mod 65536 < 65536.
Proof. apply Z.mod_pos_bound. lia. Qed.

(** With a prompt client the loop of [transfer] ends with "Sent" after
    writing, once each, the DATA packets of the blocks of the payload. *)
Lemma dataLoop_prompt (bsize : Z) (fuel : nat) (toTX : bytes) (seq : Z) rest :
  0 < bsize → 0 ≤ seq < 65536 → (length toTX ≤ fuel)%nat →
  dataLoop fuel bsize toTX seq
    (prompt seq (length (cut fuel (Z.to_nat bsize) toTX)) ++ rest)
  = (Sent, numbered seq (cut fuel (Z.to_nat bsize) toTX), rest).
Proof.
  intros Hb. revert toTX seq.
  induction fuel as [|fuel IH]; intros toTX seq Hseq Hlen.
  - destruct toTX; simpl in *; [done|lia].
  - destruct toTX as [|c toTX]; [done|].
    cbn [dataLoop cut].
    set (l := if bsize <? Z.of_nat (length (c :: toTX)) then bsize
              else Z.of_nat (length (c :: toTX))).
    assert (Htake : take (Z.to_nat l) (c :: toTX) = take (Z.to_nat bsize) (c :: toTX)).
    { unfold l. destruct (bsize <? _) eqn:Hlt; [done|].
      apply Z.ltb_ge in Hlt. rewrite !take_ge; [done|lia|lia]. }
    assert (Hdrop : drop (Z.to_nat l) (c :: toTX) = drop (Z.to_nat bsize) (c :: toTX)).
    { unfold l. destruct (bsize <? _) eqn:Hlt; [done|].
      apply Z.ltb_ge in Hlt. rewrite !drop_ge; [done|lia|lia]. }
    rewrite Htake, Hdrop. cbn [length prompt app].
    rewrite sendPacket_prompt by done.
    rewrite IH; [done|apply seq_next|].
    rewrite length_drop. simpl in *. lia.
Qed.

Lemma cut_concat (bsize fuel : nat) (toTX : bytes) :
  (0 < bsize)%nat → (length toTX ≤ fuel)%nat →
  concat (cut fuel bsize toTX) = toTX.
Proof.
  intros Hb. revert toTX. induction fuel as [|fuel IH]; intros toTX Hlen.
  - destruct toTX; simpl in *; [done|lia].
  - destruct toTX as [|c toTX]; [done|]. cbn [cut concat].
    rewrite IH; [apply take_drop|]. rewrite length_drop. simpl in *. lia.
Qed.

Lemma cut_length (bsize fuel : nat) (toTX : bytes) :
  (0 < bsize)%nat → (length toTX ≤ fuel)%nat →
  Z.of_nat (length (cut fuel bsize toTX))
  = (Z.of_nat (length toTX) + Z.of_nat bsize - 1) / Z.of_nat bsize.
Proof.
  intros Hb. revert toTX. induction fuel as [|fuel IH]; intros toTX Hlen.
  - destruct toTX; simpl in *; [|lia].
    symmetry. apply Z.div_small. lia.
  - destruct toTX as [|c toTX].
    { simpl. symmetry. apply Z.div_small. lia. }
    cbn [cut length]. rewrite Nat2Z.inj_succ, IH
      by (rewrite length_drop; simpl in *; lia).
    rewrite length_drop. simpl length in *.
    destruct (decide (S (length toTX) ≤ bsize)%nat) as [Hle|Hgt].
    + replace (S (length toTX) - bsize)%nat with 0%nat by lia.
      rewrite (Z.div_small (Z.of_nat 0 + _ - 1)) by lia.
      apply (Z.div_unique _ _ 1 (Z.of_nat (S (length toTX)) - 1)); lia.
    + rewrite Nat2Z.inj_sub by lia.
      replace (Z.of_nat (S (length toTX)) + Z.of_nat bsize - 1)
        with ((Z.of_nat (S (length toTX)) - Z.of_nat bsize + Z.of_nat bsize - 1)
              + 1 * Z.of_nat bsize) by lia.
      rewrite Z.div_add by lia. lia.
Qed.

(** Every block but the last is full, and the last is not empty. *)
Lemma cut_blocks (bsize fuel : nat) (toTX : bytes) :
  (0 < bsize)%nat → (length toTX ≤ fuel)%nat →
  ∀ (i : nat) block, cut fuel bsize toTX !! i = Some block →
    (0 < length block ≤ bsize)%nat ∧
    ((i + 1 < length (cut fuel bsize toTX))%nat → length block = bsize).
Proof.
  intros Hb. revert toTX. induction fuel as [|fuel IH]; intros toTX Hlen i block.
  - destruct toTX; simpl in *; [done|lia].
  - destruct toTX as [|c toTX]; [done|]. cbn [cut length].
    destruct i as [|i]; simpl lookup.
    + intros [= <-]. rewrite length_take. split; [simpl; lia|].
      intros Hmore.
      destruct (drop bsize (c :: toTX)) as [|c' rest] eqn:Hd.
      { destruct fuel; simpl in Hmore; lia. }
      assert (length (drop bsize (c :: toTX)) ≠ 0)%nat by (rewrite Hd; done).
      rewrite length_drop in *. lia.
    + intros Hi. destruct (IH (drop bsize (c :: toTX))
        ltac:(rewrite length_drop; simpl in *; lia) i block Hi) as [H1 H2].
      split; [done|]. intros Hmore. apply H2. lia.
Qed.

(** C3 (the code departs from it). A payload of exactly one block (512
    bytes at the default block size, or twice 8 bytes at a negotiated block
    size of 8) is sent in full blocks and the transfer ends there: the last
    DATA packet is not shorter than the block size and no empty DATA packet
    follows. *)
Theorem transfer_full_block_no_terminator :
  transfer true {| Filename := str "pxelinux.0"; BlockSize := 0 |}
    (replicate 512 "a"%char) (prompt 1 1 ++ [Timeout])
  = (Sent, [mkDATA 1 (replicate 512 "a"%char)], [Timeout]) ∧
  transfer true {| Filename := str "pxelinux.0"; BlockSize := 8 |}
    (replicate 16 "a"%char) (Datagram (mkACK 0) :: prompt 1 2 ++ [Timeout])
  = (Sent, [mkOACK 8; mkDATA 1 (replicate 8 "a"%char);
            mkDATA 2 (replicate 8 "a"%char)], [Timeout]).
Proof. split; vm_compute; reflexivity. Qed.

Lemma length_encodeOptions_cons (o : bytes * bytes) opts :
  length (encodeOptions (o :: opts))
  = (length o.1 + length o.2 + 2 + length (encodeOptions opts))%nat.
Proof.
  unfold encodeOptions. rewrite fmap_cons. cbn [concat]. unfold field.
  rewrite !length_app. cbn [length]. lia.
Qed.

(** On well-formed options the loop of [parseRRQ] computes what the
    specification says of the list of pairs. *)
Lemma parseOptions_encode (opts : list (bytes * bytes)) :
  Forall (λ o, nul_free o.1 ∧ nul_free o.2) opts →
  ∀ fuel req, (length (encodeOptions opts) ≤ fuel)%nat →
  parseOptions fuel (encodeOptions opts) req = applyOptions opts req.
Proof.
  intros Hopts. induction Hopts as [|[opt valStr] opts [Ho Hv] Hopts IH];
    intros fuel req Hfuel.
  - by destruct fuel.
  - rewrite length_encodeOptions_cons in Hfuel. simpl in Hfuel.
    destruct fuel as [|fuel]; [lia|].
    change (encodeOptions ((opt, valStr) :: opts))
      with ((field opt ++ field valStr) ++ encodeOptions opts).
    rewrite <- app_assoc.
    destruct (field opt ++ field valStr ++ encodeOptions opts) as [|c b] eqn:Hb.
    { destruct opt; discriminate. }
    cbn [parseOptions applyOptions]. rewrite <- Hb.
    rewrite nullStr_field by done. simpl negb. cbv iota.
    rewrite nullStr_field by done. simpl negb. cbv iota.
    destruct (Atoi valStr) as [val|]; [|done].
    case_decide; [|apply IH; lia].
    destruct (decide (8 ≤ val ≤ 65464)) as [Hin|Hout].
    + rewrite (proj2 (Z.ltb_ge val 8)), (proj2 (Z.ltb_ge 65464 val)) by lia.
      simpl. rewrite IH by lia. f_equal. f_equal.
      destruct (1450 <? val) eqn:Hc; [apply Z.ltb_lt in Hc|apply Z.ltb_ge in Hc]; lia.
    + destruct (val <? 8) eqn:H8; [done|]. apply Z.ltb_ge in H8.
      rewrite (proj2 (Z.ltb_lt 65464 val)) by lia. done.
Qed.

Lemma nul_free_octet : nul_free (str "octet").
Proof. apply (bool_decide_unpack _). by vm_compute. Qed.

Lemma nul_free_blksize : nul_free (str "blksize").
Proof. apply (bool_decide_unpack _). by vm_compute. Qed.

(** A well-formed read request parses to its filename and to what the
    specification says of its options. *)
Lemma parseRRQ_mkRRQ (fname : bytes) (opts : list (bytes * bytes)) :
  nul_free fname →
  Forall (λ o, nul_free o.1 ∧ nul_free o.2) opts →
  parseRRQ (mkRRQ fname opts)
  = applyOptions opts {| Filename := fname; BlockSize := 0 |}.
Proof.
  intros Hf Hopts. unfold parseRRQ, mkRRQ.
  assert ((length (PutUint16 1 ++ field fname ++ field (str "octet")
                   ++ encodeOptions opts) <? 6)%nat = false) as ->.
  { apply Nat.ltb_ge. rewrite !length_app. simpl. lia. }
  change (take 2 (PutUint16 1 ++ ?x)) with (PutUint16 1).
  change (drop 2 (PutUint16 1 ++ ?x)) with x.
  rewrite Uint16_PutUint16 by lia. simpl negb. cbv iota.
  rewrite nullStr_field by done. simpl negb. cbv iota.
  rewrite nullStr_field by apply nul_free_octet. simpl negb. cbv iota.
  by apply parseOptions_encode.
Qed.

Lemma applyOptions_app (opts1 opts2 : list (bytes * bytes)) req :
  applyOptions (opts1 ++ opts2) req
  = match applyOptions opts1 req with
    | Accept r => applyOptions opts2 r
    | other => other
    end.
Proof.
  revert req. induction opts1 as [|[opt valStr] opts1 IH]; intros req; [done|].
  simpl. destruct (Atoi valStr); [|done].
  repeat case_decide; by rewrite ?IH.
Qed.

Lemma applyOptions_other (opts : list (bytes * bytes)) req r :
  Forall (λ o, o.1 ≠ str "blksize") opts →
  applyOptions opts req = Accept r → r = req.
Proof.
  intros Hopts. revert req.
  induction Hopts as [|[opt valStr] opts Ho Hopts IH]; intros req; simpl.
  - by intros [= ->].
  - destruct (Atoi valStr); [|done]. simpl in Ho. rewrite decide_False by done.
    apply IH.
Qed.

Lemma itoa_inj (n m : Z) : itoa n = itoa m → n = m.
Proof.
  unfold itoa, str. intros H.
  apply (f_equal string_of_list_ascii) in H.
  rewrite !string_of_list_ascii_of_string in H.
  apply DecimalZ.to_int_inj.
  assert (Hn : ∀ z, NilZero.int_of_string (NilZero.string_of_int (Z.to_int z))
                    = Some (Z.to_int z)).
  { intros z. destruct z; [reflexivity| |]; apply NilZero.isi; simpl;
      try discriminate; intros [= Hp];
      by apply (DecimalPos.Unsigned.to_uint_nonnil p). }
  pose proof (Hn n) as H1. rewrite H, Hn in H1. by injection H1.
Qed.

Lemma attempts_writes_first (tries : nat) (b : bytes) seq reads :
  ∃ ws, (attempts (S tries) b seq reads).1.2 = b :: ws.
Proof.
  cbn [attempts]. destruct (await seq (replicate 256 NUL) reads) as [v rest].
  destruct v; try by eexists.
  destruct (attempts tries b seq rest) as [[v ws] r]. by eexists.
Qed.

(** When a block size was negotiated, the first packet [transfer] writes
    is the OACK of that block size. *)
Lemma transfer_writes_oack (req : rrq) (payload : bytes) reads :
  0 < BlockSize req →
  ∃ ws, (transfer true req payload reads).1.2 = mkOACK (BlockSize req) :: ws.
Proof.
  intros Hb. unfold transfer. cbn [negb].
  rewrite (proj2 (Z.ltb_lt 0 (BlockSize req)) Hb).
  change ([NUL; byte_of 6] ++ str "blksize" ++ [NUL] ++ itoa (BlockSize req) ++ [NUL])
    with (mkOACK (BlockSize req)).
  unfold sendPacket, numRetries.
  destruct (attempts_writes_first 4 (mkOACK (BlockSize req)) 0 reads) as [ws Hws].
  destruct (attempts 5 (mkOACK (BlockSize req)) 0 reads) as [[vd ws0] rest].
  simpl in Hws. subst ws0.
  destruct vd; try (by exists ws).
  destruct (dataLoop (length payload) (BlockSize req) payload 1 rest)
    as [[o ws'] rest'].
  by exists (ws ++ ws').
Qed.

(** C10. An accepted read request whose last [blksize] option asks for [v]
    with 1450 < v ≤ 65464 gets the block size [min v 1450]; the first
    packet [transfer] writes is the OACK that advertises this value, which
    is not the OACK of [v]; and with a prompt client the payload goes out in
    blocks of that same size. *)
Theorem oack_advertises_clamped (fname valStr : bytes)
    (opts1 opts2 : list (bytes * bytes)) (v : Z) (req : rrq) (payload : bytes) :
  nul_free fname → nul_free valStr →
  Forall (λ o, nul_free o.1 ∧ nul_free o.2) (opts1 ++ opts2) →
  Forall (λ o, o.1 ≠ str "blksize") opts2 →
  Atoi valStr = Some v → 1450 < v ≤ 65464 →
  parseRRQ (mkRRQ fname (opts1 ++ (str "blksize", valStr) :: opts2)) = Accept req →
  BlockSize req = Z.min v 1450 ∧
  mkOACK (Z.min v 1450) ≠ mkOACK v ∧
  (∀ reads, ∃ ws,
     (transfer true req payload reads).1.2 = mkOACK (Z.min v 1450) :: ws) ∧
  (∀ rest,
     transfer true req payload
       (Datagram (mkACK 0)
        :: prompt 1 (length (cut (length payload) (Z.to_nat (Z.min v 1450)) payload))
        ++ rest)
     = (Sent,
        mkOACK (Z.min v 1450)
        :: numbered 1 (cut (length payload) (Z.to_nat (Z.min v 1450)) payload),
        rest)).
Proof.
  intros Hf Hv Hopts Hother Hatoi Hrange Hparse.
  apply Forall_app in Hopts as [Hopts1 Hopts2].
  rewrite parseRRQ_mkRRQ in Hparse; [|done|].
  2:{ apply Forall_app. split; [done|]. constructor; [|done].
      split; [apply nul_free_blksize|done]. }
  rewrite applyOptions_app in Hparse.
  destruct (applyOptions opts1 _) as [r1| |] eqn:H1; try discriminate.
  simpl in Hparse. rewrite Hatoi in Hparse.
  rewrite decide_True in Hparse by lia.
  apply (applyOptions_other _ _ _ Hother) in Hparse. subst req.
  assert (Hmin : Z.min v 1450 = 1450) by lia. rewrite Hmin.
  split; [done|]. split.
  { unfold mkOACK. intros Heq. apply app_inv_head in Heq.
    apply app_inv_head in Heq. unfold field in Heq.
    apply app_inv_tail in Heq. apply itoa_inj in Heq. lia. }
  split.
  - intros reads.
    by apply (transfer_writes_oack {| Filename := Filename r1; BlockSize := 1450 |}
                payload reads).
  - intros rest. unfold transfer. simpl negb. cbv iota.
    change (0 <? BlockSize _) with true. cbv iota.
    cbn [BlockSize].
    change ([NUL; byte_of 6] ++ str "blksize" ++ [NUL] ++ itoa 1450 ++ [NUL])
      with (mkOACK 1450).
    rewrite sendPacket_prompt by lia.
    rewrite (dataLoop_prompt 1450) by (done || lia). done.
Qed.

Lemma oack_advertises_clamped_witness :
  BlockSize {| Filename := str "foo"; BlockSize := 1450 |} = Z.min 4096 1450 ∧
  mkOACK (Z.min 4096 1450) ≠ mkOACK 4096 ∧
  (∀ reads, ∃ ws,
     (transfer true {| Filename := str "foo"; BlockSize := 1450 |}
        (str "payload") reads).1.2 = mkOACK (Z.min 4096 1450) :: ws) ∧
  (∀ rest,
     transfer true {| Filename := str "foo"; BlockSize := 1450 |} (str "payload")
       (Datagram (mkACK 0)
        :: prompt 1 (length (cut (length (str "payload"))
                               (Z.to_nat (Z.min 4096 1450)) (str "payload")))
        ++ rest)
     = (Sent,
        mkOACK (Z.min 4096 1450)
        :: numbered 1 (cut (length (str "payload"))
                         (Z.to_nat (Z.min 4096 1450)) (str "payload")),
        rest)).
Proof.
  apply (oack_advertises_clamped (str "foo") (str "4096")
           [(str "tsize", str "0")] [(str "timeout", str "5")] 4096).
  - apply (bool_decide_unpack _). by vm_compute.
  - apply (bool_decide_unpack _). by vm_compute.
  - repeat constructor; apply (bool_decide_unpack _); by vm_compute.
  - repeat constructor. simpl. discriminate.
  - vm_compute. reflexivity.
  - lia.
  - vm_compute. reflexivity.
Defined.

(** ** Further properties of the TFTP server *)

(** X10. [nullStr] splits at the first NUL byte: it succeeds exactly on
    [s ++ NUL :: rest] with [s] free of NUL, returning [s] and [rest], and
    it fails exactly on the inputs without any NUL byte. *)
Theorem nullStr_splits_at_first_NUL (b s rest : bytes) :
  (nullStr b = (s, rest, true) ↔ nul_free s ∧ b = s ++ NUL :: rest) ∧
  (nullStr b = ([], [], false) ↔ nul_free b).
Proof.
  split; split.
  - apply nullStr_ok.
  - intros [Hs ->]. by apply nullStr_terminated.
  - apply nullStr_not_ok.
  - apply nullStr_unterminated.
Qed.

(** X11. The parser always comes to a verdict: the fuel of the loop over
    the options suffices for every datagram, and every datagram read by
    the listener is answered by an ERROR packet or starts a transfer. *)
Theorem parser_always_decides (text : parse_error → bytes) (b : bytes) :
  parseRRQ b ≠ Unfinished ∧ serve text b ≠ Hung.
Proof.
  split; [apply parseRRQ_finishes|].
  unfold serve. pose proof (parseRRQ_finishes (take 512 b)).
  by destruct (parseRRQ (take 512 b)).
Qed.

(** X12. A well-formed read request in octet mode (filename, option names
    and option values free of NUL bytes) parses to its filename and to what
    its options mean pair by pair: integer values required, [blksize]
    within [8, 65464] stored as [min value 1450], the last one winning,
    other options ignored. *)
Theorem wellformed_request_parses (fname : bytes) (opts : list (bytes * bytes)) :
  nul_free fname →
  Forall (λ o, nul_free o.1 ∧ nul_free o.2) opts →
  parseRRQ (mkRRQ fname opts)
  = applyOptions opts {| Filename := fname; BlockSize := 0 |}.
Proof. apply parseRRQ_mkRRQ. Qed.

Lemma wellformed_request_parses_witness :
  parseRRQ (mkRRQ (str "foo") [(str "blksize", str "1024"); (str "tsize", str "0")])
  = applyOptions [(str "blksize", str "1024"); (str "tsize", str "0")]
      {| Filename := str "foo"; BlockSize := 0 |}.
Proof.
  apply (wellformed_request_parses (str "foo")
           [(str "blksize", str "1024"); (str "tsize", str "0")]).
  - apply (bool_decide_unpack _). by vm_compute.
  - repeat constructor; apply (bool_decide_unpack _); by vm_compute.
Defined.

Lemma parseOptions_bounds (fuel : nat) (b : bytes) (req r : rrq) :
  BlockSize req = 0 ∨ 8 ≤ BlockSize req ≤ 1450 →
  parseOptions fuel b req = Accept r →
  (BlockSize r = 0 ∨ 8 ≤ BlockSize r ≤ 1450) ∧ Filename r = Filename req.
Proof.
  revert b req. induction fuel as [|fuel IH]; intros b req Hreq.
  - destruct b; simpl; [|discriminate]. by intros [= <-].
  - destruct b as [|c b]; [by intros [= <-]|]. cbn [parseOptions].
    destruct (nullStr (c :: b)) as [[opt b1] ok]. destruct ok; [|discriminate].
    destruct (nullStr b1) as [[valStr b2] ok]. destruct ok; [|discriminate].
    simpl. destruct (Atoi valStr) as [val|]; [|discriminate].
    case_decide; [|by apply IH].
    destruct (val <? 8) eqn:H8; [discriminate|].
    destruct (65464 <? val) eqn:H9; [discriminate|]. simpl.
    apply Z.ltb_ge in H8, H9. intros Hp. apply IH in Hp; [done|]. simpl.
    destruct (1450 <? val) eqn:Hc; [|apply Z.ltb_ge in Hc]; lia.
Qed.

(** X13. Whatever the datagram, an accepted request carries no block size
    (0, the default of 512 applies) or one between 8 and 1450, and a
    filename free of NUL bytes. *)
Theorem accepted_request_bounds (b : bytes) (req : rrq) :
  parseRRQ b = Accept req →
  (BlockSize req = 0 ∨ 8 ≤ BlockSize req ≤ 1450) ∧ nul_free (Filename req).
Proof.
  unfold parseRRQ. destruct (length b <? 6)%nat; [discriminate|].
  destruct (negb _); [discriminate|].
  destruct (nullStr (drop 2 b)) as [[fname b1] ok] eqn:Hf.
  destruct ok; [|discriminate]. simpl.
  destruct (nullStr b1) as [[mode b2] ok]. destruct ok; [|discriminate]. simpl.
  destruct (negb _); [discriminate|].
  intros Hp. apply parseOptions_bounds in Hp as [Hb Hn]; [|by left].
  split; [done|]. rewrite Hn. simpl. by apply nullStr_ok in Hf as [Hfree _].
Qed.

Lemma accepted_request_bounds_witness :
  (BlockSize {| Filename := str "foo"; BlockSize := 1450 |} = 0 ∨
   8 ≤ BlockSize {| Filename := str "foo"; BlockSize := 1450 |} ≤ 1450) ∧
  nul_free (Filename {| Filename := str "foo"; BlockSize := 1450 |}).
Proof.
  apply (accepted_request_bounds (mkRRQ (str "foo") [(str "blksize", str "4096")])).
  vm_compute. reflexivity.
Defined.

(** X14. A read request in a transfer mode other than [octet] is rejected
    with the error that names the mode, and the listener answers it with an
    ERROR packet instead of starting a transfer. *)
Theorem other_mode_rejected (text : parse_error → bytes)
    (fname mode rest : bytes) :
  nul_free fname → nul_free mode → mode ≠ str "octet" →
  (2 ≤ length fname + length mode + length rest)%nat →
  parseRRQ (PutUint16 1 ++ field fname ++ field mode ++ rest)
    = Reject (UnsupportedMode mode) ∧
  ((length (PutUint16 1 ++ field fname ++ field mode ++ rest) ≤ 512)%nat →
   serve text (PutUint16 1 ++ field fname ++ field mode ++ rest)
   = Replied (mkError (text (UnsupportedMode mode)))).
Proof.
  intros Hf Hm Hne Hlen.
  assert (Hp : parseRRQ (PutUint16 1 ++ field fname ++ field mode ++ rest)
               = Reject (UnsupportedMode mode)).
  { unfold parseRRQ.
    assert ((length (PutUint16 1 ++ field fname ++ field mode ++ rest) <? 6)%nat
            = false) as ->.
    { apply Nat.ltb_ge. unfold field. rewrite !length_app. simpl. lia. }
    change (take 2 (PutUint16 1 ++ ?x)) with (PutUint16 1).
    change (drop 2 (PutUint16 1 ++ ?x)) with x.
    rewrite Uint16_PutUint16 by lia. simpl negb. cbv iota.
    rewrite nullStr_field by done. simpl negb. cbv iota.
    rewrite nullStr_field by done. simpl negb. cbv iota.
    by rewrite bool_decide_eq_false_2. }
  split; [done|]. intros Hshort. unfold serve.
  rewrite take_ge by done. by rewrite Hp.
Qed.

Lemma other_mode_rejected_witness :
  parseRRQ (PutUint16 1 ++ field (str "foo") ++ field (str "netascii") ++ [])
    = Reject (UnsupportedMode (str "netascii")) ∧
  ((length (PutUint16 1 ++ field (str "foo") ++ field (str "netascii") ++ [])
    ≤ 512)%nat →
   serve (λ _, str "unsupported transfer mode")
     (PutUint16 1 ++ field (str "foo") ++ field (str "netascii") ++ [])
   = Replied (mkError (str "unsupported transfer mode"))).
Proof.
  apply (other_mode_rejected (λ _, str "unsupported transfer mode")
           (str "foo") (str "netascii") []).
  - apply (bool_decide_unpack _). by vm_compute.
  - apply (bool_decide_unpack _). by vm_compute.
  - discriminate.
  - simpl. lia.
Defined.

(** X15. An option whose value is not an integer makes the whole request
    fail, even an option the server does not know, once the options before
    it were accepted. *)
Theorem non_integer_option_rejects_request (fname opt valStr : bytes)
    (opts1 opts2 : list (bytes * bytes)) (r1 : rrq) :
  nul_free fname → nul_free opt → nul_free valStr →
  Forall (λ o, nul_free o.1 ∧ nul_free o.2) (opts1 ++ opts2) →
  applyOptions opts1 {| Filename := fname; BlockSize := 0 |} = Accept r1 →
  Atoi valStr = None →
  parseRRQ (mkRRQ fname (opts1 ++ (opt, valStr) :: opts2))
  = Reject (NonInteger valStr opt).
Proof.
  intros Hf Ho Hv Hopts H1 Hatoi.
  apply Forall_app in Hopts as [Hopts1 Hopts2].
  rewrite parseRRQ_mkRRQ; [|done|].
  2:{ apply Forall_app. split; [done|]. by constructor. }
  rewrite applyOptions_app, H1. simpl. by rewrite Hatoi.
Qed.

Lemma non_integer_option_rejects_request_witness :
  parseRRQ (mkRRQ (str "foo")
              ([(str "blksize", str "1024")]
               ++ (str "windowsize", str "four") :: []))
  = Reject (NonInteger (str "four") (str "windowsize")).
Proof.
  apply (non_integer_option_rejects_request (str "foo") (str "windowsize")
           (str "four") [(str "blksize", str "1024")] []
           {| Filename := str "foo"; BlockSize := 1024 |}).
  - apply (bool_decide_unpack _). by vm_compute.
  - apply (bool_decide_unpack _). by vm_compute.
  - apply (bool_decide_unpack _). by vm_compute.
  - repeat constructor; apply (bool_decide_unpack _); by vm_compute.
  - vm_compute. reflexivity.
  - vm_compute. reflexivity.
Defined.

(** X16. With a client that acknowledges every packet at once, [transfer]
    ends with "Sent" after writing the OACK (if a block size was
    negotiated) and then, once each and numbered from 1, the DATA packets of
    the blocks of the payload; the blocks concatenated are the payload,
    there are ceil(N/B) of them, every block but the last has exactly B
    bytes and the last has between 1 and B bytes -- so a payload of a
    multiple of B bytes ends with a full block. *)
Theorem transfer_sends_payload_in_blocks (req : rrq) (payload : bytes)
    (rest : list read) :
  let B := blockSizeOf req in
  let blocks := cut (length payload) (Z.to_nat B) payload in
  transfer true req payload
    (oackAcked req ++ prompt 1 (length blocks) ++ rest)
  = (Sent, oackOf req ++ numbered 1 blocks, rest) ∧
  concat blocks = payload ∧
  Z.of_nat (length blocks) = (Z.of_nat (length payload) + B - 1) / B ∧
  ∀ (i : nat) block, blocks !! i = Some block →
    0 < Z.of_nat (length block) ≤ B ∧
    ((i + 1 < length blocks)%nat → Z.of_nat (length block) = B).
Proof.
  intros B blocks.
  assert (HB : 0 < B) by (unfold B, blockSizeOf; case_match; lia).
  split; [|split; [|split]].
  - unfold transfer, oackAcked, oackOf, blocks, B, blockSizeOf.
    cbn [negb]. destruct (0 <? BlockSize req) eqn:Hb.
    + apply Z.ltb_lt in Hb.
      change ([NUL; byte_of 6] ++ str "blksize" ++ [NUL]
              ++ itoa (BlockSize req) ++ [NUL]) with (mkOACK (BlockSize req)).
      cbn [app]. rewrite sendPacket_prompt by lia.
      by rewrite dataLoop_prompt by (done || lia).
    + cbn [app]. by rewrite (dataLoop_prompt 512) by (done || lia).
  - apply cut_concat; lia.
  - unfold blocks. rewrite cut_length by lia. by rewrite Z2Nat.id by lia.
  - intros i block Hi.
    destruct (cut_blocks (Z.to_nat B) (length payload) payload
                ltac:(lia) ltac:(lia) i block Hi) as [H1 H2].
    split; [lia|]. intros Hmore. specialize (H2 Hmore). lia.
Qed.

Lemma attempts_writes (tries : nat) (b : bytes) seq reads :
  ∃ k, (k ≤ tries)%nat ∧ ((0 < tries)%nat → (1 ≤ k)%nat) ∧
       (attempts tries b seq reads).1.2 = replicate k b.
Proof.
  revert reads. induction tries as [|tries IH]; intros reads.
  - exists 0%nat. repeat split; [lia|done].
  - cbn [attempts]. destruct (await seq (replicate 256 NUL) reads) as [v rest].
    destruct v; try (exists 1%nat; repeat split; [lia|done]).
    destruct (IH rest) as (k & Hk & _ & Hws).
    destruct (attempts tries b seq rest) as [[v ws] r]. simpl in *.
    exists (S k). repeat split; [lia|lia|]. by rewrite Hws.
Qed.

(** X17. Whatever the client does, [sendPacket] writes the packet at least
    once and at most five times, and writes nothing else. *)
Theorem sendPacket_writes_one_to_five (b : bytes) (seq : Z) (reads : list read) :
  ∃ k, (1 ≤ k ≤ 5)%nat ∧ (sendPacket b seq reads).1.2 = replicate k b.
Proof.
  unfold sendPacket, numRetries.
  destruct (attempts_writes 5 b seq reads) as (k & Hk & Hpos & Hws).
  exists k. split; [|done]. split; [apply Hpos; lia|done].
Qed.

Lemma mkError_mkERROR (s : bytes) : mkError s = mkERROR 0 s.
Proof. reflexivity. Qed.

(** X18. The ERROR packet [mkError] builds from a text is read back by the
    waiting side of the protocol as that text: a [sendPacket] that receives
    it stops at once with the client-aborted error carrying the text. *)
Theorem mkError_read_back (b : bytes) (seq : Z) (s : bytes) (rest : list read) :
  nul_free s → (length s < 252)%nat →
  Uint16 (take 2 (mkError s)) = 5 ∧
  Uint16 (take 2 (drop 2 (mkError s))) = 0 ∧
  nullStr (drop 4 (mkError s)) = (s, [], true) ∧
  sendPacket b seq (Datagram (mkError s) :: rest)
  = (Stop (ClientAborted s), [b], rest).
Proof.
  intros Hs Hlen. repeat split.
  - change (drop 4 (mkError s)) with (s ++ [NUL]). by apply nullStr_terminated.
  - unfold sendPacket, numRetries.
    apply (attempts_decided b seq [] _ (Stop (ClientAborted s)) rest);
      [done| |done].
    intros recv Hr. rewrite mkError_mkERROR. by apply await_error.
Qed.

Lemma mkError_read_back_witness :
  Uint16 (take 2 (mkError (str "no such file"))) = 5 ∧
  Uint16 (take 2 (drop 2 (mkError (str "no such file")))) = 0 ∧
  nullStr (drop 4 (mkError (str "no such file"))) = (str "no such file", [], true) ∧
  sendPacket (mkDATA 1 (str "boot")) 1 (Datagram (mkError (str "no such file")) :: [])
  = (Stop (ClientAborted (str "no such file")), [mkDATA 1 (str "boot")], []).
Proof.
  apply (mkError_read_back (mkDATA 1 (str "boot")) 1 (str "no such file") []).
  - apply (bool_decide_unpack _). by vm_compute.
  - simpl. lia.
Defined.

Lemma sendPacket_error (b : bytes) (seq code : Z) (msg : bytes) rest :
  nul_free msg → (length msg < 252)%nat →
  sendPacket b seq (Datagram (mkERROR code msg) :: rest)
  = (Stop (ClientAborted msg), [b], rest).
Proof.
  intros Hfree Hlen. unfold sendPacket, numRetries.
  apply (attempts_decided b seq [] _ (Stop (ClientAborted msg)) rest);
    [done| |done].
  intros recv Hr. by apply await_error.
Qed.

(** X19. A client that answers the OACK with an ERROR packet, whatever its
    error code and text, ends the transfer before any DATA packet:
    [transfer] wrote the OACK once and stops with the refusal that is logged
    at debug level. *)
Theorem oack_refused_sends_no_data (req : rrq) (payload d : bytes)
    (rest : list read) :
  0 < BlockSize req → errs d = true →
  ∃ m, transfer true req payload (Datagram d :: rest)
       = (OackRefused (ClientAborted m), [mkOACK (BlockSize req)], rest).
Proof.
  intros Hb Herr. unfold transfer. cbn [negb].
  rewrite (proj2 (Z.ltb_lt 0 (BlockSize req)) Hb).
  change ([NUL; byte_of 6] ++ str "blksize" ++ [NUL] ++ itoa (BlockSize req) ++ [NUL])
    with (mkOACK (BlockSize req)).
  unfold sendPacket, numRetries. cbn [attempts].
  destruct (await_errs 0 (replicate 256 NUL) d rest) as [m ->];
    [by rewrite length_replicate|done|].
  by exists m.
Qed.

Lemma oack_refused_sends_no_data_witness :
  ∃ m, transfer true {| Filename := str "foo"; BlockSize := 1024 |} (str "payload")
         (Datagram (mkERROR 8 (replicate 300 "x"%char)) :: [])
       = (OackRefused (ClientAborted m),
          [mkOACK (BlockSize {| Filename := str "foo"; BlockSize := 1024 |})], []).
Proof.
  apply (oack_refused_sends_no_data {| Filename := str "foo"; BlockSize := 1024 |}
           (str "payload") (mkERROR 8 (replicate 300 "x"%char)) []).
  - simpl. lia.
  - vm_compute. reflexivity.
Defined.

Lemma dataLoop_cons (fuel : nat) (bsize : Z) c (t : bytes) seq reads :
  0 < bsize →
  dataLoop (S fuel) bsize (c :: t) seq reads
  = match sendPacket (mkDATA seq (take (Z.to_nat bsize) (c :: t))) seq reads with
    | (Acked, ws, rest) =>
        let '(o, ws', rest') :=
          dataLoop fuel bsize (drop (Z.to_nat bsize) (c :: t))
            ((seq + 1) mod 65536) rest in
        (o, ws ++ ws', rest')
    | (Stop err, ws, rest) => (TransferFailed err, ws, rest)
    | (_, ws, rest) => (Stuck, ws, rest)
    end.
Proof.
  intros Hb. cbn [dataLoop].
  set (l := if bsize <? Z.of_nat (length (c :: t)) then bsize
            else Z.of_nat (length (c :: t))).
  assert (Htake : take (Z.to_nat l) (c :: t) = take (Z.to_nat bsize) (c :: t)).
  { unfold l. destruct (bsize <? _) eqn:Hlt; [done|].
    apply Z.ltb_ge in Hlt. rewrite !take_ge; [done|lia|lia]. }
  assert (Hdrop : drop (Z.to_nat l) (c :: t) = drop (Z.to_nat bsize) (c :: t)).
  { unfold l. destruct (bsize <? _) eqn:Hlt; [done|].
    apply Z.ltb_ge in Hlt. rewrite !drop_ge; [done|lia|lia]. }
  by rewrite Htake, Hdrop.
Qed.

Lemma sendPacket_silence (b : bytes) (seq : Z) (rounds : list (list bytes)) rest :
  length rounds = 5%nat →
  Forall (Forall (λ d, passed_over seq d = true)) rounds →
  sendPacket b seq (silence rounds ++ rest)
  = (Stop (TimedOut seq), replicate 5 b, rest).
Proof.
  intros Hlen Hrounds. unfold sendPacket, numRetries.
  rewrite attempts_silence by (done || lia). rewrite Hlen. reflexivity.
Qed.

Lemma dataLoop_block_lost (bsize : Z) (rounds : list (list bytes)) rest :
  0 < bsize → length rounds = 5%nat →
  ∀ fuel (toTX : bytes) seq (j : nat) block,
    0 ≤ seq < 65536 → (length toTX ≤ fuel)%nat →
    cut fuel (Z.to_nat bsize) toTX !! j = Some block →
    Forall (Forall (λ d, passed_over ((seq + Z.of_nat j) mod 65536) d = true))
      rounds →
    dataLoop fuel bsize toTX seq (prompt seq j ++ silence rounds ++ rest)
    = (TransferFailed (TimedOut ((seq + Z.of_nat j) mod 65536)),
       numbered seq (take j (cut fuel (Z.to_nat bsize) toTX))
       ++ replicate 5 (mkDATA ((seq + Z.of_nat j) mod 65536) block),
       rest).
Proof.
  intros Hb Hlen. induction fuel as [|fuel IH]; intros toTX seq j block Hseq Hfuel Hj Hr.
  - by destruct toTX.
  - destruct toTX as [|c t]; [done|].
    rewrite dataLoop_cons by done. cbn [cut] in Hj |- *.
    destruct j as [|j].
    + injection Hj as <-. change (Z.of_nat 0) with 0 in Hr |- *.
      rewrite Z.add_0_r in Hr |- *.
      rewrite (Z.mod_small seq 65536) in Hr |- * by lia.
      cbn [prompt app]. by rewrite sendPacket_silence.
    + cbn [prompt app lookup list_lookup] in Hj |- *.
      rewrite sendPacket_prompt by done.
      assert (Hs : ((seq + 1) mod 65536 + Z.of_nat j) mod 65536
                   = (seq + Z.of_nat (S j)) mod 65536).
      { rewrite Z.add_mod_idemp_l by lia. f_equal. lia. }
      rewrite (IH _ _ j block); [|apply seq_next| |done|by rewrite Hs].
      * by rewrite Hs.
      * rewrite length_drop. cbn [length] in Hfuel |- *. lia.
Qed.

(** X20. When the client acknowledges the first [j] blocks and then stays
    silent for five attempts, [transfer] fails with the timeout error of
    block [j + 1], having written that block five times and no later
    block. *)
Theorem lost_block_fails_transfer (req : rrq) (payload : bytes)
    (rounds : list (list bytes)) (j : nat) (block : bytes) (rest : list read) :
  let B := blockSizeOf req in
  let blocks := cut (length payload) (Z.to_nat B) payload in
  let seq := (1 + Z.of_nat j) mod 65536 in
  blocks !! j = Some block →
  length rounds = 5%nat →
  Forall (Forall (λ d, passed_over seq d = true)) rounds →
  transfer true req payload
    (oackAcked req ++ prompt 1 j ++ silence rounds ++ rest)
  = (TransferFailed (TimedOut seq),
     oackOf req ++ numbered 1 (take j blocks) ++ replicate 5 (mkDATA seq block),
     rest).
Proof.
  intros B blocks seq Hj Hlen Hrounds.
  assert (HB : 0 < B) by (unfold B, blockSizeOf; case_match; lia).
  unfold transfer, oackAcked, oackOf, blocks, B, blockSizeOf in *.
  cbn [negb]. destruct (0 <? BlockSize req) eqn:Hb.
  - change ([NUL; byte_of 6] ++ str "blksize" ++ [NUL]
            ++ itoa (BlockSize req) ++ [NUL]) with (mkOACK (BlockSize req)).
    cbn [app]. rewrite sendPacket_prompt by lia.
    by rewrite (dataLoop_block_lost _ rounds rest HB Hlen _ _ 1 j block)
      by (done || lia).
  - cbn [app].
    by rewrite (dataLoop_block_lost 512 rounds rest HB Hlen _ _ 1 j block)
      by (done || lia).
Qed.

Lemma lost_block_fails_transfer_witness :
  transfer true {| Filename := str "foo"; BlockSize := 8 |}
    (str "0123456789abcdefXYZ")
    (oackAcked {| Filename := str "foo"; BlockSize := 8 |} ++ prompt 1 1
     ++ silence [[]; [mkACK 1]; []; [str "x"]; []] ++ [])
  = (TransferFailed (TimedOut ((1 + Z.of_nat 1) mod 65536)),
     oackOf {| Filename := str "foo"; BlockSize := 8 |}
     ++ numbered 1 (take 1 (cut (length (str "0123456789abcdefXYZ"))
                              (Z.to_nat (blockSizeOf
                                 {| Filename := str "foo"; BlockSize := 8 |}))
                              (str "0123456789abcdefXYZ")))
     ++ replicate 5 (mkDATA ((1 + Z.of_nat 1) mod 65536) (str "89abcdef")),
     []).
Proof.
  apply (lost_block_fails_transfer {| Filename := str "foo"; BlockSize := 8 |}
           (str "0123456789abcdefXYZ") [[]; [mkACK 1]; []; [str "x"]; []]
           1 (str "89abcdef") []).
  - vm_compute. reflexivity.
  - reflexivity.
  - repeat constructor.
Defined.

End TftpFacts.
